(** * mega.op.arithmethic: divisor power sums and Euler's totient

    A shallow embedding of [mega/op/arithmethic.pyx] (Cython) and the
    verification of its specification.

    Conventions of the embedding.
    - A C [int] is a [Z] in [-2^31, 2^31); a C [long] is a [Z] in
      [-2^63, 2^63) (LP64).  Arithmetic whose result is stored in an [int]
      or a [long] is reduced with [wrap_int] / [wrap_long]: two's
      complement wrap-around, which is what the compiled code does on
      signed overflow (CPython builds extension modules with [-fwrapv]).
    - [%] and [//] on C integers follow Python semantics (Cython's default,
      [cdivision=False]): floor division, remainder with the sign of the
      divisor, [ZeroDivisionError] on a zero divisor.  These are [Z.div]
      and [Z.modulo].
    - A Python exception is the [Raise] outcome of the [outcome] monad.
    - [libc.math.pow] is exact where the power is a binary64 number; where
      it is not, the C library returns one of the two neighbouring binary64
      numbers.  With [pow] the embedding leaves the choice open: the outcome
      is [Unspecified].  With [pow_under libm] the choice is made, the same
      at every call, by [libm].
    - The method [compute] is a sequence of statements that run on the
      object and the local variables ([compute], [compute_with]); its loops
      are also given as functions on the local variables, with the fields
      read from an object that stays as it is ([compute_value]), and
      [compute_with_eq] shows that the two agree.
    - A [while] loop is iterated by [while], which takes a bound on the
      number of turns, written in binary; the bounds used are larger than
      the number of values a C [int] can take, and [Timeout] is the outcome
      of a loop that has not ended by then. *)

From Stdlib Require Import ZArith Lia String Zdivisibility DecimalString.
From mathcomp Require ssreflect.
From mathcomp Require Import ssrfun ssrbool eqtype ssrnat seq div prime bigop.

Set Implicit Arguments.
Unset Strict Implicit.
Unset Printing Implicit Defensive.

Local Open Scope Z_scope.

(** * The program *)

(** ** Machine integers *)

Definition INT_MIN : Z := Eval cbv in - 2 ^ 31.
Definition INT_MAX : Z := Eval cbv in 2 ^ 31 - 1.
Definition UINT_MAX : Z := Eval cbv in Z.ones 32.
Definition LONG_MIN : Z := Eval cbv in - 2 ^ 63.
Definition LONG_MAX : Z := Eval cbv in 2 ^ 63 - 1.
Definition ULONG_MAX : Z := Eval cbv in Z.ones 64.

(** Reduction to the 32 (64) low bits, read as a signed number. *)
Definition wrap_int (x : Z) : Z := Z.land (x - INT_MIN) UINT_MAX + INT_MIN.
Definition wrap_long (x : Z) : Z := Z.land (x - LONG_MIN) ULONG_MAX + LONG_MIN.

Definition in_int (x : Z) : Prop := INT_MIN <= x <= INT_MAX.

(** ** Exceptions and outcomes *)

Inductive exception : Type :=
| ValueError (msg : string)
| TypeError (msg : string)
| ZeroDivisionError
| SystemError.

(** [Unspecified]: the value depends on a choice the embedding leaves to
    the C library.  [Timeout]: a loop has not ended within its bound. *)
Inductive outcome (A : Type) : Type :=
| Return (a : A)
| Raise (e : exception)
| Unspecified
| Timeout.

Arguments Return {A} a.
Arguments Raise {A} e.
Arguments Unspecified {A}.
Arguments Timeout {A}.

Definition bind {A B : Type} (m : outcome A) (k : A -> outcome B) : outcome B :=
  match m with
  | Return a => k a
  | Raise e => Raise e
  | Unspecified => Unspecified
  | Timeout => Timeout
  end.

Notation "x <- m ;; k" := (bind m (fun x => k))
  (at level 61, m at next level, right associativity).
Notation "' p <- m ;; k" := (bind m (fun x => let p := x in k))
  (at level 61, p pattern, m at next level, right associativity).

(** Python's [a % b] and [a // b] on C integers.  ([INT_MIN // -1], which
    traps in C, needs a negative dividend; the dividends of this program
    are positive wherever its results are stated.) *)
Definition c_mod (a b : Z) : outcome Z :=
  if b =? 0 then Raise ZeroDivisionError else Return (a mod b).

Definition c_floordiv (a b : Z) : outcome Z :=
  if b =? 0 then Raise ZeroDivisionError else Return (wrap_int (a / b)).

(** ** While loops *)

Section While.
Variable St : Type.
Variable cond : St -> outcome bool.
Variable body : St -> outcome St.

(** One turn of the loop: [inl s'] when the body ran and the loop goes on
    from [s'], [inr o] when the loop is left with outcome [o]. *)
Definition turn (s : St) : St + outcome St :=
  match cond s with
  | Return true =>
      match body s with
      | Return s' => inl s'
      | o => inr o
      end
  | Return false => inr (Return s)
  | Raise e => inr (Raise e)
  | Unspecified => inr Unspecified
  | Timeout => inr Timeout
  end.

(** At most [p] turns, [p] in binary. *)
Fixpoint turns (p : positive) (s : St) : St + outcome St :=
  match p with
  | xH => turn s
  | xO q =>
      match turns q s with
      | inl s1 => turns q s1
      | inr o => inr o
      end
  | xI q =>
      match turn s with
      | inl s0 =>
          match turns q s0 with
          | inl s1 => turns q s1
          | inr o => inr o
          end
      | inr o => inr o
      end
  end.

Definition while (bound : positive) (s : St) : outcome St :=
  match turns bound s with
  | inl _ => Timeout
  | inr o => o
  end.
End While.

(** ** Statements

    A statement of a method runs on a state, the object with the local
    variables, and leaves a state, also when it raises. *)

Definition stmt (St A : Type) : Type := St -> outcome A * St.

Definition ret {St A : Type} (a : A) : stmt St A := fun s => (Return a, s).

(** An expression on C values, which does not look at the state. *)
Definition eval {St A : Type} (o : outcome A) : stmt St A := fun s => (o, s).

(** Reading and assigning. *)
Definition get {St A : Type} (f : St -> A) : stmt St A := fun s => (Return (f s), s).
Definition put {St : Type} (f : St -> St) : stmt St unit := fun s => (Return tt, f s).

Definition bind_stmt {St A B : Type} (m : stmt St A) (k : A -> stmt St B) : stmt St B :=
  fun s =>
    match m s with
    | (Return a, s') => k a s'
    | (Raise e, s') => (Raise e, s')
    | (Unspecified, s') => (Unspecified, s')
    | (Timeout, s') => (Timeout, s')
    end.

Notation "x <~ m ;; k" := (bind_stmt m (fun x => k))
  (at level 61, m at next level, right associativity).
Notation "m ;;; k" := (bind_stmt m (fun _ => k))
  (at level 61, right associativity).

Section WhileStmt.
Variable St : Type.
Variable cond : stmt St bool.
Variable body : stmt St unit.

(** One turn of a loop of statements: [inl s'] when the body ran and the
    loop goes on from [s'], [inr (o, s')] when the loop is left in the state
    [s'] with outcome [o]. *)
Definition turn_stmt (s : St) : St + outcome unit * St :=
  match cond s with
  | (Return true, s1) =>
      match body s1 with
      | (Return _, s2) => inl s2
      | (o, s2) => inr (o, s2)
      end
  | (Return false, s1) => inr (Return tt, s1)
  | (Raise e, s1) => inr (Raise e, s1)
  | (Unspecified, s1) => inr (Unspecified, s1)
  | (Timeout, s1) => inr (Timeout, s1)
  end.

Fixpoint turns_stmt (p : positive) (s : St) : St + outcome unit * St :=
  match p with
  | xH => turn_stmt s
  | xO q =>
      match turns_stmt q s with
      | inl s1 => turns_stmt q s1
      | inr r => inr r
      end
  | xI q =>
      match turn_stmt s with
      | inl s0 =>
          match turns_stmt q s0 with
          | inl s1 => turns_stmt q s1
          | inr r => inr r
          end
      | inr r => inr r
      end
  end.

Definition while_stmt (bound : positive) : stmt St unit :=
  fun s =>
    match turns_stmt bound s with
    | inl s' => (Timeout, s')
    | inr r => r
    end.
End WhileStmt.

(** ** [libc.math.pow] and the cast to [long]

    [pow] works on IEEE-754 binary64 numbers.  Both arguments are C ints,
    converted exactly.  For an integer base and a positive integer exponent
    the result is the exact power when that is a binary64 number (at most
    53 significant bits); otherwise it is one of its two binary64
    neighbours.  [<long>] truncates towards zero; on a value outside the
    range of [long] (undefined in C) the x86-64 conversion yields
    [LONG_MIN]. *)

Inductive double : Type :=
| Finite (v : Z)          (* an integral value *)
| Between (lo hi : Z)     (* [lo] or [hi], two neighbouring integral values *)
| Fraction (neg : bool)   (* a value strictly between -1 and 1, not 0 *)
| Infinity (neg : bool).

(** The binary64 neighbours of an integer [v >= 0]: [v] with the bits
    below its 53 leading ones cleared, and that plus one unit of the last
    place kept. *)
Definition floor53 (v : Z) : Z :=
  let e := Z.log2 v - 52 in
  if e <=? 0 then v else Z.shiftl (Z.shiftr v e) e.

Definition ceil53 (v : Z) : Z :=
  let e := Z.log2 v - 52 in
  if floor53 v =? v then v else floor53 v + Z.shiftl 1 e.

Definition pow (x y : Z) : double :=
  let neg := (x <? 0) && Z.odd y in
  if y =? 0 then Finite 1
  else if 0 <? y then
    let v := Z.abs x ^ y in
    if 2 ^ 1024 <=? v then Infinity neg
    else if floor53 v =? v then Finite (if neg then - v else v)
    else if neg then Between (- ceil53 v) (- floor53 v)
    else Between (floor53 v) (ceil53 v)
  else (* y < 0 *)
    if x =? 0 then Infinity false
    else if Z.abs x =? 1 then Finite (if neg then -1 else 1)
    else Fraction neg.

Definition long_of_double (d : double) : outcome Z :=
  match d with
  | Finite v =>
      Return (if (LONG_MIN <=? v) && (v <=? LONG_MAX) then v else LONG_MIN)
  | Between lo hi =>
      if (LONG_MAX <? lo) || (hi <=? LONG_MIN) then Return LONG_MIN
      else Unspecified
  | Fraction _ => Return 0
  | Infinity _ => Return LONG_MIN
  end.

(** The choice of the C library.  Its [pow] is a function: where the power
    is not a binary64 number, it returns the same one of the two neighbours
    at every call.  [libm x y] tells whether [pow(x, y)] is the upper one,
    and [pow_under libm] is [pow] with that choice made. *)
Definition pow_under (libm : Z -> Z -> bool) (x y : Z) : double :=
  match pow x y with
  | Between lo hi => Finite (if libm x y then hi else lo)
  | d => d
  end.

(** ** Formatting

    [str] of a Python int, which is what a replacement field of an
    f-string holds for a C integer: the decimal digits, after a [-] for a
    negative number. *)
Definition str_of_int (v : Z) : string := NilZero.string_of_int (Z.to_int v).

(** ** [cdef class SigmaZ] *)

Module SigmaZ.

(** [cdef int n], [cdef int z] *)
Record t : Type := Make { n : Z; z : Z }.

(** Fields of a freshly allocated extension type are zero. *)
Definition alloc : t := {| n := 0; z := 0 |}.

Definition __cinit__ (self : t) (n z : Z) : outcome t :=
  if n <=? 0 then Raise (ValueError "only acc positive integer")
  else if z <? 0 then Raise (ValueError "exponent must be non-negative")
  else
    let self := {| n := n; z := SigmaZ.z self |} in
    let self := {| n := SigmaZ.n self; z := z |} in
    Return self.

(** [SigmaZ(n, z)] *)
Definition new (n z : Z) : outcome t := __cinit__ alloc n z.

(** The two loops of [compute] run over the pair [(total, i)];
    [while i * i <= self.n] is their common test. *)
Definition loop_bound : positive := 2 ^ 33.

Definition loop_test (self : t) : Z * Z -> outcome bool :=
  fun '(total, i) => Return (wrap_int (i * i) <=? n self).

(** The body of the loop for [z = 0]: count the divisors. *)
Definition count_body (self : t) : Z * Z -> outcome (Z * Z) :=
  fun '(total, i) =>
    r <- c_mod (n self) i ;;
    total <- (if r =? 0 then
                oth_div <- c_floordiv (n self) i ;;
                if i =? oth_div
                then Return (wrap_long (total + 1))
                else Return (wrap_long (total + 2))
              else Return total) ;;
    Return (total, wrap_int (i + 1)).

(** The body of the general loop: add the powers of the divisors.
    [powf] is the C library's [pow]: [pow] itself, where its choice between
    two neighbours is left open, or [pow_under libm]. *)
Definition power_body_with (powf : Z -> Z -> double) (self : t) :
  Z * Z -> outcome (Z * Z) :=
  fun '(total, i) =>
    r <- c_mod (n self) i ;;
    total <- (if r =? 0 then
                oth_div <- c_floordiv (n self) i ;;
                power_i <- long_of_double (powf i (z self)) ;;
                power_oth <- long_of_double (powf oth_div (z self)) ;;
                if i =? oth_div
                then Return (wrap_long (total + power_i))
                else Return (wrap_long (total + wrap_long (power_i + power_oth)))
              else Return total) ;;
    Return (total, wrap_int (i + 1)).

Definition power_body : t -> Z * Z -> outcome (Z * Z) := power_body_with pow.

(** The value returned by [compute], from the fields of an object that
    stays as it is.  ([limit = <int>sqrt(self.n)] is assigned in the source
    and never read.) *)
Definition compute_value_with (powf : Z -> Z -> double) (self : t) : outcome Z :=
  let total := 0 in
  let i := 1 in
  if z self =? 0 then
    '(total, _) <- while (loop_test self) (count_body self) loop_bound (total, i) ;;
    Return total
  else
    '(total, _) <- while (loop_test self) (power_body_with powf self) loop_bound
                     (total, i) ;;
    Return total.

Definition compute_value : t -> outcome Z := compute_value_with pow.

(** [compute] as a method, statement by statement.  Its state is the
    object with the local variables [total] and [i]; [oth_div], [power_i]
    and [power_oth] are assigned before each use and are bound where they
    are assigned; [limit] is assigned once and never read. *)
Record state : Type := State { self : t; total : Z; i : Z }.

(** [self.n], [self.z], [total], [i] read; [total = v], [i = v]. *)
Definition get_n : stmt state Z := get (fun s => n (self s)).
Definition get_z : stmt state Z := get (fun s => z (self s)).
Definition get_total : stmt state Z := get total.
Definition get_i : stmt state Z := get i.
Definition set_total (v : Z) : stmt state unit :=
  put (fun s => State (self s) v (i s)).
Definition set_i (v : Z) : stmt state unit :=
  put (fun s => State (self s) (total s) v).

(** [i * i <= self.n] *)
Definition loop_cond : stmt state bool :=
  i <~ get_i ;; n <~ get_n ;;
  ret (wrap_int (i * i) <=? n).

(** [i += 1] *)
Definition next_i : stmt state unit :=
  i <~ get_i ;; set_i (wrap_int (i + 1)).

(** [if self.n % i == 0: ...; i += 1], the body of the loop for [z = 0]. *)
Definition count_stmts : stmt state unit :=
  n <~ get_n ;; i <~ get_i ;; r <~ eval (c_mod n i) ;;
  (if r =? 0 then
     n <~ get_n ;; i <~ get_i ;; oth_div <~ eval (c_floordiv n i) ;;
     i <~ get_i ;;
     if i =? oth_div
     then total <~ get_total ;; set_total (wrap_long (total + 1))
     else total <~ get_total ;; set_total (wrap_long (total + 2))
   else ret tt) ;;;
  next_i.

(** The body of the general loop. *)
Definition power_stmts (powf : Z -> Z -> double) : stmt state unit :=
  n <~ get_n ;; i <~ get_i ;; r <~ eval (c_mod n i) ;;
  (if r =? 0 then
     n <~ get_n ;; i <~ get_i ;; oth_div <~ eval (c_floordiv n i) ;;
     i <~ get_i ;; z <~ get_z ;; power_i <~ eval (long_of_double (powf i z)) ;;
     z <~ get_z ;; power_oth <~ eval (long_of_double (powf oth_div z)) ;;
     i <~ get_i ;;
     if i =? oth_div
     then total <~ get_total ;; set_total (wrap_long (total + power_i))
     else total <~ get_total ;;
          set_total (wrap_long (total + wrap_long (power_i + power_oth)))
   else ret tt) ;;;
  next_i.

Definition compute_stmts (powf : Z -> Z -> double) : stmt state Z :=
  z <~ get_z ;;
  if z =? 0 then
    while_stmt loop_cond count_stmts loop_bound ;;;
    get_total
  else
    while_stmt loop_cond (power_stmts powf) loop_bound ;;;
    get_total.

(** A call on the object [self], with [total = 0] and [i = 1] as declared:
    the outcome and the object after the call. *)
Definition compute_with (powf : Z -> Z -> double) (self : t) : outcome Z * t :=
  match compute_stmts powf (State self 0 1) with
  | (o, State self' _ _) => (o, self')
  end.

Definition compute : t -> outcome Z * t := compute_with pow.

(** [__repr__]: the f-string formats [self.n] and [self.z], then builds a
    second instance from the two fields and formats what its [compute]
    returns. *)
Definition __repr__ (self : t) : outcome string * t :=
  (let s_n := str_of_int (n self) in
   let s_z := str_of_int (z self) in
   other <- new (n self) (z self) ;;
   v <- fst (compute other) ;;
   Return ("SigmaZ(" ++ s_n ++ ", " ++ s_z ++ ") = " ++ str_of_int v)%string,
   self).

End SigmaZ.

(** ** [euler_phi] *)

(** Python objects, as far as [isinstance(n, int)] looks at them. *)
Inductive pyobject : Type :=
| PyInt (v : Z)
| PyOther.

(** A C int used as a Python object is boxed into a Python int. *)
Definition PyInt_FromLong (v : Z) : pyobject := PyInt v.

Definition isinstance_int (o : pyobject) : bool :=
  match o with
  | PyInt _ => true
  | PyOther => false
  end.

Definition strip_bound : positive := 2 ^ 32.
Definition trial_bound : positive := 2 ^ 32.

(** [while n % i == 0: n //= i] *)
Definition strip (i : Z) : Z -> outcome Z :=
  while
    (fun n => r <- c_mod n i ;; Return (r =? 0))
    (fun n => c_floordiv n i)
    strip_bound.

(** [while i * i <= n], over the triple [(i, n, result)]. *)
Definition trial_test : Z * Z * Z -> outcome bool :=
  fun '(i, n, result) => Return (wrap_int (i * i) <=? n).

Definition trial_body : Z * Z * Z -> outcome (Z * Z * Z) :=
  fun '(i, n, result) =>
    r <- c_mod n i ;;
    '(n, result) <- (if r =? 0 then
                       q <- c_floordiv result i ;;
                       let result := wrap_int (result - q) in
                       n <- strip i n ;;
                       Return (n, result)
                     else Return (n, result)) ;;
    Return (wrap_int (i + 2), n, result).

(** The body of [euler_phi], from its C int argument. *)
Definition euler_phi_body (n : Z) : outcome Z :=
  if n <=? 0 then Raise (ValueError "only positive number will accept")
  else if negb (isinstance_int (PyInt_FromLong n)) then
    Raise (TypeError "only acc integer numbers")
  else
    let result := n in
    let i := 2 in
    r <- c_mod n 2 ;;
    '(n, result) <- (if r =? 0 then
                       q <- c_floordiv result 2 ;;
                       let result := wrap_int (result - q) in
                       n <- strip 2 n ;;
                       Return (n, result)
                     else Return (n, result)) ;;
    let i := 3 in
    '(i, n, result) <- while trial_test trial_body trial_bound (i, n, result) ;;
    result <- (if 1 <? n then
                 q <- c_floordiv result n ;;
                 Return (wrap_int (result - q))
               else Return result) ;;
    Return result.

(** [cpdef int euler_phi(int n) except -1]: the C function returns [-1]
    with the exception set when its body raises; a caller that sees [-1]
    takes the error path, and an error path without an exception set is a
    [SystemError]. *)
Definition except_minus_one (o : outcome Z) : outcome (Z * option exception) :=
  match o with
  | Return v => Return (v, None)
  | Raise e => Return (-1, Some e)
  | Unspecified => Unspecified
  | Timeout => Timeout
  end.

Definition check_minus_one (r : outcome (Z * option exception)) : outcome Z :=
  '(v, err) <- r ;;
  if v =? -1 then
    match err with
    | Some e => Raise e
    | None => Raise SystemError
    end
  else Return v.

Definition euler_phi (n : Z) : outcome Z :=
  check_minus_one (except_minus_one (euler_phi_body n)).

(** * The specification

    Brute-force enumerations over [1..n], as the specification words them. *)

(** [sum_upto g k] is [g 1 + ... + g k]. *)
Fixpoint sum_upto (g : Z -> Z) (k : nat) : Z :=
  match k with
  | O => 0
  | S k' => sum_upto g k' + g (Z.of_nat k)
  end.

Definition divides (d n : Z) : bool := n mod d =? 0.

(** Sum of [d ^ z] over the positive divisors [d] of [n]. *)
Definition sigma_spec (n z : Z) : Z :=
  sum_upto (fun d => if divides d n then d ^ z else 0) (Z.to_nat n).

(** Number of positive divisors of [n]. *)
Definition tau_spec (n : Z) : Z :=
  sum_upto (fun d => if divides d n then 1 else 0) (Z.to_nat n).

(** Number of [k] in [1..n] with [gcd k n = 1]. *)
Definition coprime_count (n : Z) : Z :=
  sum_upto (fun k => if Z.gcd k n =? 1 then 1 else 0) (Z.to_nat n).

(** [k] calls of [compute] in a row on one object, each on the object that
    the call before it has left: their outcomes, and the object in the
    end. *)
Fixpoint calls (powf : Z -> Z -> double) (k : nat) (self : SigmaZ.t) :
  list (outcome Z) * SigmaZ.t :=
  match k with
  | O => (nil, self)
  | S k' =>
      let '(o, self1) := SigmaZ.compute_with powf self in
      let '(os, self2) := calls powf k' self1 in
      (o :: os, self2)
  end.

(** * Notions used in the proofs *)

(** Sum over the divisor pairs [(i, n / i)] for [i] in [1..k]: the quantity
    the loops of [compute] accumulate. *)
Fixpoint pair_sum (f : Z -> Z) (n : Z) (k : nat) : Z :=
  match k with
  | O => 0
  | S k' =>
      let i := Z.of_nat k in
      pair_sum f n k' +
      (if divides i n then (if i =? n / i then f i else f i + f (n / i)) else 0)
  end.

(** [pair_sum] with the candidate kept in [Z], for evaluation. *)
Fixpoint pair_sum_from (f : Z -> Z) (n : Z) (k : nat) (i acc : Z) : Z :=
  match k with
  | O => acc
  | S k' =>
      pair_sum_from f n k' (i + 1)
        (acc + (if divides i n then (if i =? n / i then f i else f i + f (n / i)) else 0))
  end.

(** The loop of [compute] for [z = 0], run for at most [k] turns with the
    quotient [q = n / i], the remainder [r = n mod i] and the low 32 bits
    [s] of [i * i] carried from one turn to the next instead of computed
    afresh. *)
Fixpoint count_run (k : nat) (n total i q r s : Z) : option (Z * Z) :=
  match k with
  | O => None
  | S k' =>
      if (if s <? 2147483648 then s else s - 4294967296) <=? n then
        let total' :=
          if r =? 0 then (if i =? q then total + 1 else total + 2) else total in
        let '(q', r') :=
          if 0 <=? r - q then (q, r - q)
          else if 0 <=? r - q + (i + 1) then (q - 1, r - q + (i + 1))
          else Z.div_eucl n (i + 1) in
        let s1 := s + 2 * i + 1 in
        let s' := if s1 <? 4294967296 then s1 else s1 - 4294967296 in
        count_run k' n total' (i + 1) q' r' s'
      else Some (total, i)
  end.

(** What [count_run] carries: [q], [r] and [s] are what they stand for, and
    [total] is small. *)
Definition count_carried (n total i q r s : Z) : Prop :=
  1 <= i /\ n = q * i + r /\ 0 <= r < i /\
  (exists c, i * i = s + c * 4294967296) /\ 0 <= s < 4294967296 /\
  0 <= total <= 2 * i.

(** The divisors reached after [k] turns: those at most [k], and the
    cofactors of those. *)
Definition reached (f : Z -> Z) (n k d : Z) : Z :=
  if divides d n && ((d <=? k) || (n / d <=? k)) then f d else 0.

(** A bound on the partial sums of powers: the first 215 pairs add at most
    [2 * 2^53] each, a later pair at most [2 * 41699996549726], where
    [41699996549726] is [2^53 / 216] rounded down. *)
Definition partial_bound (k : Z) : Z :=
  if k <=? 215 then k * 2 ^ 54
  else 215 * 2 ^ 54 + (k - 215) * 83399993099452.

(** No divisor of [m] lies strictly between [1] and [i]. *)
Definition no_small_div (m i : Z) : Prop :=
  forall d, 1 < d < i -> ~ (d | m).

(** The running product formula of [euler_phi]: [n0 = s * m] with [s] the
    part of [n0] whose primes have been treated, and [r = phi(s) * m]. *)
Definition partial_phi (n0 m r : Z) : Prop :=
  exists s, 0 < s /\ n0 = s * m /\ Z.gcd s m = 1 /\ r = coprime_count s * m.

(** The invariant of the outer loop of [euler_phi n0]: an odd candidate
    [i >= 3] below which [m] has no divisor, or, once [i + 2] has wrapped,
    [m = 1]. *)
Definition trial_inv (n0 : Z) (s : Z * Z * Z) : Prop :=
  let '(i, m, r) := s in
  partial_phi n0 m r /\
  ((3 <= i <= INT_MAX /\ i mod 2 = 1 /\ m mod 2 = 1 /\
    1 <= m <= INT_MAX /\ no_small_div m i)
   \/ ((i = INT_MIN + 1 \/ i = INT_MIN + 3) /\ m = 1)).

(** Turns left in the outer loop of [euler_phi], at most. *)
Definition trial_measure (s : Z * Z * Z) : Z :=
  let '(i, _, _) := s in
  if 0 <? i then 2 ^ 31 + 5 - i else 5 - 2 ^ 31 - i.

(** The state of [compute] in which the object is [self] and the local
    variables are the pair [(total, i)]. *)
Definition state_of (self : SigmaZ.t) (q : Z * Z) : SigmaZ.state :=
  SigmaZ.State self (fst q) (snd q).

(** An outcome without its value. *)
Definition void {A : Type} (o : outcome A) : outcome unit :=
  match o with
  | Return _ => Return tt
  | Raise e => Raise e
  | Unspecified => Unspecified
  | Timeout => Timeout
  end.

(** Turns left in a loop of [compute], at most: the candidate [i] goes up
    from [1] through [INT_MAX], wraps to [INT_MIN] and comes up to [0]. *)
Definition wrap_measure (s : Z * Z) : Z :=
  let '(_, i) := s in
  if 0 <? i then 2 ^ 32 - i else - i.

(** * Proofs *)

(** ** Machine integers *)

Lemma wrap_int_mod x : wrap_int x = (x + 2 ^ 31) mod 2 ^ 32 - 2 ^ 31.
Proof.
  unfold wrap_int. change UINT_MAX with (Z.ones 32).
  rewrite Z.land_ones by lia. unfold INT_MIN.
  replace (x - -2147483648) with (x + 2 ^ 31) by lia. lia.
Qed.

Lemma wrap_long_mod x : wrap_long x = (x + 2 ^ 63) mod 2 ^ 64 - 2 ^ 63.
Proof.
  unfold wrap_long. change ULONG_MAX with (Z.ones 64).
  rewrite Z.land_ones by lia. unfold LONG_MIN.
  replace (x - -9223372036854775808) with (x + 2 ^ 63) by lia. lia.
Qed.

Lemma wrap_int_id x : INT_MIN <= x <= INT_MAX -> wrap_int x = x.
Proof.
  unfold INT_MIN, INT_MAX. intros H. rewrite wrap_int_mod.
  rewrite Z.mod_small; lia.
Qed.

Lemma wrap_long_id x : LONG_MIN <= x <= LONG_MAX -> wrap_long x = x.
Proof.
  unfold LONG_MIN, LONG_MAX. intros H. rewrite wrap_long_mod.
  rewrite Z.mod_small; lia.
Qed.

(** Multiples of [2^32] do not matter, and the low 32 bits are read as a
    signed number. *)
Lemma wrap_int_shift x c : wrap_int (x + c * 4294967296) = wrap_int x.
Proof.
  rewrite !wrap_int_mod. change 4294967296 with (2 ^ 32).
  replace (x + c * 2 ^ 32 + 2 ^ 31) with (x + 2 ^ 31 + c * 2 ^ 32) by lia.
  now rewrite Z.mod_add by lia.
Qed.

Lemma wrap_int_low s :
  0 <= s < 4294967296 ->
  wrap_int s = if s <? 2147483648 then s else s - 4294967296.
Proof.
  intros Hs. destruct (Z.ltb_spec s 2147483648).
  - apply wrap_int_id. unfold INT_MIN, INT_MAX. lia.
  - replace s with (s - 4294967296 + 1 * 4294967296) at 1 by lia.
    rewrite wrap_int_shift. apply wrap_int_id. unfold INT_MIN, INT_MAX. lia.
Qed.

Lemma wrap_int_range x : in_int (wrap_int x).
Proof.
  unfold in_int, INT_MIN, INT_MAX. rewrite wrap_int_mod.
  pose proof (Z.mod_pos_bound (x + 2 ^ 31) (2 ^ 32) ltac:(lia)). lia.
Qed.

(** ** The rule for [while] loops

    A loop whose test and body neither raise nor diverge on states that
    satisfy the invariant, and whose body decreases a non-negative measure
    smaller than the bound, ends in a state that satisfies the invariant
    and fails the test. *)

Section WhileRule.
Variable St : Type.
Variable cond : St -> outcome bool.
Variable body : St -> outcome St.
Variable Inv : St -> Prop.
Variable measure : St -> Z.

Hypothesis measure_nonneg : forall s, Inv s -> 0 <= measure s.
Hypothesis step :
  forall s, Inv s ->
    cond s = Return false \/
    (cond s = Return true /\
     exists s', body s = Return s' /\ Inv s' /\ measure s' < measure s).

Lemma turn_inv s :
  Inv s ->
  (turn cond body s = inr (Return s) /\ cond s = Return false) \/
  (exists s', turn cond body s = inl s' /\ Inv s' /\ measure s' + 1 <= measure s).
Proof.
  intros HI. unfold turn.
  destruct (step HI) as [Hc | [Hc [s' [Hb [HI' Hm]]]]]; rewrite Hc.
  - now left.
  - right. exists s'. rewrite Hb. repeat split; auto; lia.
Qed.

Lemma turns_inv p : forall s,
  Inv s ->
  (exists s', turns cond body p s = inr (Return s') /\ Inv s' /\ cond s' = Return false) \/
  (exists s', turns cond body p s = inl s' /\ Inv s' /\ measure s' + Z.pos p <= measure s).
Proof.
  induction p as [q IH | q IH | ]; intros s HI; cbn [turns].
  - destruct (turn_inv HI) as [[Ht Hc] | [s0 [Ht [HI0 Hm0]]]]; rewrite Ht.
    + left. now exists s.
    + destruct (IH _ HI0) as [[s1 [H1 HQ]] | [s1 [H1 [HI1 Hm1]]]]; rewrite H1.
      * left. now exists s1.
      * destruct (IH _ HI1) as [[s2 [H2 HQ]] | [s2 [H2 [HI2 Hm2]]]]; rewrite H2.
        -- left. now exists s2.
        -- right. exists s2. repeat split; auto; lia.
  - destruct (IH _ HI) as [[s1 [H1 HQ]] | [s1 [H1 [HI1 Hm1]]]]; rewrite H1.
    + left. now exists s1.
    + destruct (IH _ HI1) as [[s2 [H2 HQ]] | [s2 [H2 [HI2 Hm2]]]]; rewrite H2.
      * left. now exists s2.
      * right. exists s2. repeat split; auto; lia.
  - destruct (turn_inv HI) as [[Ht Hc] | [s0 [Ht [HI0 Hm0]]]]; rewrite Ht.
    + left. now exists s.
    + right. exists s0. repeat split; auto; lia.
Qed.

Lemma while_rule bound s :
  Inv s -> measure s < Z.pos bound ->
  exists s', while cond body bound s = Return s' /\ Inv s' /\ cond s' = Return false.
Proof.
  intros HI Hm. unfold while.
  destruct (turns_inv bound HI) as [[s1 [H1 HQ]] | [s1 [H1 [HI1 Hm1]]]]; rewrite H1.
  - now exists s1.
  - pose proof (measure_nonneg HI1). lia.
Qed.
End WhileRule.

(** ** Sums over [1..k] *)

Lemma sum_upto_ext g h k :
  (forall d, 1 <= d <= Z.of_nat k -> g d = h d) -> sum_upto g k = sum_upto h k.
Proof.
  induction k as [|k IH]; intros H; cbn [sum_upto]; [reflexivity|].
  rewrite IH, H; try lia. intros d Hd. apply H. lia.
Qed.

Lemma sum_upto_zero k : sum_upto (fun _ => 0) k = 0.
Proof. induction k as [|k IH]; cbn [sum_upto]; lia. Qed.

Lemma sum_upto_plus g h k :
  sum_upto (fun d => g d + h d) k = sum_upto g k + sum_upto h k.
Proof. induction k as [|k IH]; cbn [sum_upto]; lia. Qed.

Lemma sum_upto_point a c k :
  1 <= a <= Z.of_nat k -> sum_upto (fun d => if d =? a then c else 0) k = c.
Proof.
  induction k as [|k IH]; intros Ha; cbn [sum_upto]; [lia|].
  destruct (Z.eqb_spec (Z.of_nat (S k)) a) as [E|E].
  - rewrite (@sum_upto_ext _ (fun _ => 0)), sum_upto_zero; [lia|].
    intros d Hd. destruct (Z.eqb_spec d a); lia.
  - rewrite IH; lia.
Qed.

Lemma sum_upto_nonneg g k :
  (forall d, 1 <= d <= Z.of_nat k -> 0 <= g d) -> 0 <= sum_upto g k.
Proof.
  induction k as [|k IH]; intros H; cbn [sum_upto]; [lia|].
  assert (0 <= g (Z.of_nat (S k))) by (apply H; lia).
  assert (0 <= sum_upto g k) by (apply IH; intros; apply H; lia). lia.
Qed.

(** ** Divisor pairs *)

Lemma divides_spec d n : 0 < d -> divides d n = true <-> n = d * (n / d).
Proof.
  intros Hd. unfold divides. rewrite Z.eqb_eq.
  pose proof (Z.div_mod n d ltac:(lia)). lia.
Qed.

Lemma divides_mul d e : 0 < d -> divides d (d * e) = true.
Proof.
  intros Hd. unfold divides. rewrite Z.mul_comm, Z.mod_mul by lia. reflexivity.
Qed.

Lemma reached_step f n k d :
  0 <= k -> (k + 1) * (k + 1) <= n -> 1 <= d <= n ->
  reached f n (k + 1) d =
  reached f n k d
  + ((if d =? k + 1 then (if divides (k + 1) n then f (k + 1) else 0) else 0)
     + (if d =? n / (k + 1)
        then (if divides (k + 1) n && negb (k + 1 =? n / (k + 1))
              then f (n / (k + 1)) else 0)
        else 0)).
Proof.
  intros Hk Hsq Hd. unfold reached.
  set (i := k + 1) in *.
  assert (Hi : 0 < i) by lia.
  pose proof (Z.div_mod n d ltac:(lia)) as Ed.
  pose proof (Z.mod_pos_bound n d ltac:(lia)) as Bd.
  pose proof (Z.div_mod n i ltac:(lia)) as Ei.
  pose proof (Z.mod_pos_bound n i ltac:(lia)) as Bi.
  assert (He : 1 <= n / d) by (apply Z.div_le_lower_bound; lia).
  destruct (divides d n) eqn:Dd; cbn [andb].
  - apply divides_spec in Dd; [|lia].
    destruct (Z.leb_spec d k) as [L1|L1]; cbn [orb].
    + (* d <= k: already reached *)
      assert ((d <=? i) = true) as -> by (apply Z.leb_le; lia). cbn [orb].
      destruct (Z.eqb_spec d i) as [E1|E1]; [lia|].
      destruct (Z.eqb_spec d (n / i)) as [E2|E2].
      * destruct (divides i n) eqn:Di; cbn [andb]; [|lia].
        apply divides_spec in Di; [|lia]. exfalso. nia.
      * lia.
    + destruct (Z.leb_spec (n / d) k) as [L2|L2].
      * (* n / d <= k: already reached *)
        assert ((n / d <=? i) = true) as -> by (apply Z.leb_le; lia).
        rewrite Bool.orb_true_r.
        destruct (Z.eqb_spec d i) as [E1|E1]; [exfalso; nia|].
        destruct (Z.eqb_spec d (n / i)) as [E2|E2].
        -- destruct (divides i n) eqn:Di; cbn [andb]; [|lia].
           apply divides_spec in Di; [|lia]. exfalso. nia.
        -- lia.
      * (* both d and n / d are beyond k *)
        destruct (Z.eqb_spec d i) as [E1|E1].
        -- subst d. assert ((i <=? i) = true) as -> by (apply Z.leb_le; lia).
           cbn [orb].
           assert (divides i n = true) as -> by (apply divides_spec; lia).
           cbn [andb].
           destruct (Z.eqb_spec i (n / i)) as [E2|E2]; cbn [negb].
           ++ destruct (Z.eqb_spec i (n / i)); lia.
           ++ destruct (Z.eqb_spec i (n / i)); lia.
        -- assert ((d <=? i) = false) as -> by (apply Z.leb_gt; lia).
           cbn [orb].
           destruct (Z.leb_spec (n / d) i) as [L3|L3].
           ++ assert (E3 : n / d = i) by lia.
              assert (Di : divides i n = true).
              { rewrite Dd, E3, Z.mul_comm. apply divides_mul. lia. }
              rewrite Di. cbn [andb].
              assert (E4 : n / i = d).
              { rewrite Dd at 1. rewrite E3, Z.div_mul; lia. }
              rewrite E4.
              destruct (Z.eqb_spec d d); [|lia].
              destruct (Z.eqb_spec i d); [lia|]. cbn [negb]. lia.
           ++ destruct (Z.eqb_spec d (n / i)) as [E2|E2]; [|lia].
              destruct (divides i n) eqn:Di; cbn [andb]; [|lia].
              apply divides_spec in Di; [|lia]. exfalso.
              assert (n / d = i); [|lia].
              rewrite Di at 1. rewrite <- E2, Z.div_mul; lia.
  - (* d does not divide n *)
    destruct (Z.eqb_spec d i) as [E1|E1].
    + subst d. rewrite Dd.
      destruct (Z.eqb_spec i (n / i)) as [E2|E2]; cbn [andb]; lia.
    + destruct (Z.eqb_spec d (n / i)) as [E2|E2]; [|lia].
      destruct (divides i n) eqn:Di; cbn [andb]; [|lia].
      apply divides_spec in Di; [|lia]. exfalso.
      assert (divides d n = true); [|congruence].
      rewrite Di, E2, Z.mul_comm. apply divides_mul. lia.
Qed.

Lemma pair_sum_reached f n k :
  0 < n -> Z.of_nat k * Z.of_nat k <= n ->
  pair_sum f n k = sum_upto (reached f n (Z.of_nat k)) (Z.to_nat n).
Proof.
  intros Hn. induction k as [|k IH]; intros Hk.
  - cbn [pair_sum]. rewrite (@sum_upto_ext _ (fun _ => 0)), sum_upto_zero; [lia|].
    intros d Hd. unfold reached.
    assert (1 <= n / d) by (apply Z.div_le_lower_bound; lia).
    destruct (Z.leb_spec d (Z.of_nat 0)); [lia|].
    destruct (Z.leb_spec (n / d) (Z.of_nat 0)); [lia|].
    now rewrite Bool.andb_false_r.
  - cbn [pair_sum]. rewrite IH by lia.
    replace (Z.of_nat (S k)) with (Z.of_nat k + 1) in * by lia.
    set (i := Z.of_nat k + 1) in *.
    assert (Hin : 1 <= i <= n) by nia.
    assert (Hjn : 1 <= n / i <= n).
    { split; [apply Z.div_le_lower_bound; lia|].
      apply Z.div_le_upper_bound; nia. }
    rewrite (@sum_upto_ext (reached f n i) _ (Z.to_nat n)
               (fun d Hd => @reached_step f n (Z.of_nat k) d ltac:(lia) Hk ltac:(lia))).
    rewrite !sum_upto_plus. fold i. rewrite !sum_upto_point by lia.
    destruct (divides i n); cbn [andb]; [|lia].
    destruct (Z.eqb_spec i (n / i)); cbn [negb]; lia.
Qed.

(** With [k] the integer square root of [n], every divisor is reached. *)
Lemma pair_sum_all f n k :
  0 < n -> Z.of_nat k * Z.of_nat k <= n < (Z.of_nat k + 1) * (Z.of_nat k + 1) ->
  pair_sum f n k = sum_upto (fun d => if divides d n then f d else 0) (Z.to_nat n).
Proof.
  intros Hn Hk. rewrite pair_sum_reached by lia.
  apply sum_upto_ext. intros d Hd. unfold reached.
  destruct (divides d n) eqn:Dd; cbn [andb]; [|reflexivity].
  apply divides_spec in Dd; [|lia].
  destruct (Z.leb_spec d (Z.of_nat k)); cbn [orb]; [reflexivity|].
  destruct (Z.leb_spec (n / d) (Z.of_nat k)); [reflexivity|]. exfalso. nia.
Qed.

(** ** The loops of [SigmaZ.compute] while [i * i] fits a C [int] *)

Section PairLoop.
Variables n z : Z.
Variable f : Z -> Z.
Variable body : Z * Z -> outcome (Z * Z).

Hypothesis n_range : 0 < n < 46340 * 46340.
Hypothesis body_spec :
  forall i, 1 <= i -> i * i <= n ->
    body (pair_sum f n (Z.to_nat (i - 1)), i)
    = Return (pair_sum f n (Z.to_nat i), i + 1).

Lemma pair_loop bound :
  46341 <= Z.pos bound ->
  exists i,
    while (SigmaZ.loop_test (SigmaZ.Make n z)) body bound (0, 1)
    = Return (sum_upto (fun d => if divides d n then f d else 0) (Z.to_nat n), i).
Proof.
  intros Hb.
  pose (Inv := fun s : Z * Z =>
                 1 <= snd s <= 46340 /\ (snd s - 1) * (snd s - 1) <= n /\
                 fst s = pair_sum f n (Z.to_nat (snd s - 1))).
  assert (Hnn : forall s, Inv s -> 0 <= 46341 - snd s).
  { intros s [Hi _]. lia. }
  assert (Hstep : forall s, Inv s ->
            SigmaZ.loop_test (SigmaZ.Make n z) s = Return false \/
            (SigmaZ.loop_test (SigmaZ.Make n z) s = Return true /\
             exists s', body s = Return s' /\ Inv s' /\
                        46341 - snd s' < 46341 - snd s)).
  { intros [total i] [Hi [Hsq Ht]]. cbn [fst snd] in *.
    unfold SigmaZ.loop_test. cbn [SigmaZ.n].
    assert (Hwr : wrap_int (i * i) = i * i).
    { apply wrap_int_id. unfold INT_MIN, INT_MAX. nia. }
    rewrite Hwr. destruct (Z.leb_spec (i * i) n) as [L|L].
    + right. split; [reflexivity|]. exists (pair_sum f n (Z.to_nat i), i + 1).
      split; [rewrite Ht; apply body_spec; lia|].
      unfold Inv. cbn [fst snd]. replace (i + 1 - 1) with i by lia.
      repeat split; try lia; nia.
    + now left. }
  assert (H0 : Inv (0, 1)).
  { unfold Inv. cbn [fst snd]. repeat split; try lia. }
  destruct (@while_rule _ (SigmaZ.loop_test (SigmaZ.Make n z)) body Inv
              (fun s => 46341 - snd s) Hnn Hstep bound (0, 1) H0)
    as [[total i] [Hw [[Hi [Hsq Ht]] Hc]]].
  { cbn [snd]. lia. }
  exists i. rewrite Hw. cbn [fst snd] in *.
  unfold SigmaZ.loop_test in Hc. cbn [SigmaZ.n] in Hc.
  assert (Hwr : wrap_int (i * i) = i * i).
  { apply wrap_int_id. unfold INT_MIN, INT_MAX. nia. }
  rewrite Hwr in Hc. injection Hc as Hc. apply Z.leb_gt in Hc.
  rewrite Ht. do 2 f_equal. apply pair_sum_all; [lia|].
  rewrite Z2Nat.id by lia. split; [lia|].
  replace (i - 1 + 1) with i by lia. lia.
Qed.
End PairLoop.

Lemma pair_sum_succ f n i :
  1 <= i ->
  pair_sum f n (Z.to_nat i)
  = pair_sum f n (Z.to_nat (i - 1))
    + (if divides i n then (if i =? n / i then f i else f i + f (n / i)) else 0).
Proof.
  intros Hi. replace (Z.to_nat i) with (S (Z.to_nat (i - 1))) by lia.
  cbn [pair_sum]. replace (Z.of_nat (S (Z.to_nat (i - 1)))) with i by lia.
  reflexivity.
Qed.

Lemma cofactor_range n i :
  0 < n -> 1 <= i -> i * i <= n -> i <= n / i <= n.
Proof.
  intros Hn Hi Hsq. split.
  - apply Z.div_le_lower_bound; lia.
  - apply Z.div_le_upper_bound; nia.
Qed.

(** *** Counting divisors ([z = 0]) *)

Lemma pair_sum_count_bound n k :
  0 <= pair_sum (fun _ => 1) n k <= 2 * Z.of_nat k.
Proof.
  induction k as [|k IH]; cbn [pair_sum]; [lia|].
  destruct (divides _ n); [|lia].
  destruct (_ =? _); lia.
Qed.

Lemma count_body_spec n z i total :
  0 < n < 46340 * 46340 -> 1 <= i -> i * i <= n ->
  total = pair_sum (fun _ => 1) n (Z.to_nat (i - 1)) ->
  SigmaZ.count_body (SigmaZ.Make n z) (total, i)
  = Return (pair_sum (fun _ => 1) n (Z.to_nat i), i + 1).
Proof.
  intros Hn Hi Hsq Ht.
  pose proof (pair_sum_count_bound n (Z.to_nat (i - 1))) as Hb.
  pose proof (@cofactor_range n i (proj1 Hn) Hi Hsq) as Hj.
  rewrite pair_sum_succ by lia. rewrite <- Ht in *.
  unfold SigmaZ.count_body, c_mod, c_floordiv, divides. cbn [SigmaZ.n].
  destruct (Z.eqb_spec i 0) as [|_]; [lia|]. cbn [bind].
  rewrite (@wrap_int_id (i + 1)) by (unfold INT_MIN, INT_MAX; nia).
  destruct (n mod i =? 0); cbn [bind].
  - rewrite (@wrap_int_id (n / i)) by (unfold INT_MIN, INT_MAX; lia).
    destruct (i =? n / i); cbn [bind];
      rewrite wrap_long_id by (unfold LONG_MIN, LONG_MAX; lia);
      do 2 f_equal; lia.
  - do 2 f_equal; lia.
Qed.

(** *** Summing powers ([z >= 1]) *)

Lemma floor53_exact v : 0 <= v <= 2 ^ 53 -> floor53 v = v.
Proof.
  intros Hv. destruct (Z.eq_dec v (2 ^ 53)) as [->|Hne]; [reflexivity|].
  unfold floor53.
  destruct (Z.eq_dec v 0) as [->|Hz]; [reflexivity|].
  assert (Z.log2 v < 53) by (apply Z.log2_lt_pow2; lia).
  destruct (Z.leb_spec (Z.log2 v - 52) 0); [reflexivity|lia].
Qed.

Lemma pow_exact x y :
  1 <= x -> 1 <= y -> x ^ y <= 2 ^ 53 ->
  long_of_double (pow x y) = Return (x ^ y).
Proof.
  intros Hx Hy Hp. unfold pow.
  assert (0 < x ^ y) by (apply Z.pow_pos_nonneg; lia).
  destruct (Z.ltb_spec x 0); [lia|]. cbn [andb].
  destruct (Z.eqb_spec y 0); [lia|].
  destruct (Z.ltb_spec 0 y); [|lia].
  rewrite Z.abs_eq by lia.
  destruct (Z.leb_spec (2 ^ 1024) (x ^ y)); [lia|].
  rewrite floor53_exact, Z.eqb_refl by lia.
  cbn [long_of_double]. unfold LONG_MIN, LONG_MAX.
  destruct (Z.leb_spec (-9223372036854775808) (x ^ y)); [|lia].
  destruct (Z.leb_spec (x ^ y) 9223372036854775807); [|lia]. reflexivity.
Qed.

Lemma partial_bound_long k : 0 <= k <= 46340 -> partial_bound k <= LONG_MAX.
Proof.
  intros Hk. unfold partial_bound, LONG_MAX.
  destruct (Z.leb_spec k 215); lia.
Qed.

Section PowerBound.
Variables n z : Z.
Hypothesis n_pos : 0 < n.
Hypothesis z_pos : 1 <= z.
Hypothesis fits : n ^ z <= 2 ^ 53.

Lemma pow_le_self i : 1 <= i -> i <= i ^ z.
Proof.
  intros Hi. replace z with (1 + (z - 1)) by lia.
  rewrite Z.pow_add_r, Z.pow_1_r by lia.
  assert (0 < i ^ (z - 1)) by (apply Z.pow_pos_nonneg; lia). nia.
Qed.

Lemma divisor_pow_le d : 1 <= d <= n -> 1 <= d ^ z <= 2 ^ 53.
Proof.
  intros Hd. split.
  - pose proof (pow_le_self (proj1 Hd)). lia.
  - apply Z.le_trans with (n ^ z); [|exact fits].
    apply Z.pow_le_mono_l. lia.
Qed.

Lemma pair_pow_bound i :
  1 <= i -> i * i <= n -> divides i n = true ->
  i ^ z <= (n / i) ^ z /\ (n / i) ^ z * i <= 2 ^ 53.
Proof.
  intros Hi Hsq Hd. apply divides_spec in Hd; [|lia].
  pose proof (cofactor_range n_pos Hi Hsq) as Hj. split.
  - apply Z.pow_le_mono_l. lia.
  - apply Z.le_trans with (n ^ z); [|exact fits].
    rewrite Hd at 2. rewrite Z.pow_mul_l.
    pose proof (pow_le_self Hi).
    assert (0 < (n / i) ^ z) by (apply Z.pow_pos_nonneg; lia). nia.
Qed.

Lemma pair_sum_pow_bound k :
  Z.of_nat k * Z.of_nat k <= n ->
  0 <= pair_sum (fun d => d ^ z) n k <= partial_bound (Z.of_nat k).
Proof.
  induction k as [|k IH]; intros Hk; [cbn; lia|].
  cbn [pair_sum]. specialize (IH ltac:(lia)).
  set (i := Z.of_nat (S k)) in *.
  assert (Hi : 1 <= i) by lia.
  assert (Ek : Z.of_nat k = i - 1) by lia. rewrite Ek in IH.
  assert (Hstep : partial_bound (i - 1) + 2 ^ 54 <= partial_bound i \/
                  (216 <= i /\ partial_bound (i - 1) + 83399993099452 <= partial_bound i)).
  { unfold partial_bound.
    destruct (Z.leb_spec (i - 1) 215), (Z.leb_spec i 215); lia. }
  destruct (divides i n) eqn:Hd.
  - destruct (pair_pow_bound Hi Hk Hd) as [H1 H2].
    pose proof (cofactor_range n_pos Hi Hk) as Hj.
    pose proof (@divisor_pow_le i ltac:(lia)).
    pose proof (@divisor_pow_le (n / i) ltac:(lia)).
    assert (Hbig : 216 <= i -> (n / i) ^ z <= 41699996549726).
    { intros. nia. }
    destruct (i =? n / i); destruct Hstep as [Hs|[Hs1 Hs2]];
      try specialize (Hbig Hs1); lia.
  - unfold partial_bound in *.
    destruct (Z.leb_spec (i - 1) 215), (Z.leb_spec i 215); lia.
Qed.

Lemma power_body_spec i total :
  n < 46340 * 46340 -> 1 <= i -> i * i <= n ->
  total = pair_sum (fun d => d ^ z) n (Z.to_nat (i - 1)) ->
  SigmaZ.power_body (SigmaZ.Make n z) (total, i)
  = Return (pair_sum (fun d => d ^ z) n (Z.to_nat i), i + 1).
Proof.
  intros Hn Hi Hsq Ht.
  pose proof (@pair_sum_pow_bound (Z.to_nat (i - 1)) ltac:(nia)) as Hb0.
  pose proof (@pair_sum_pow_bound (Z.to_nat i) ltac:(nia)) as Hb1.
  rewrite Z2Nat.id in Hb0, Hb1 by lia.
  pose proof (@partial_bound_long i ltac:(nia)) as HL.
  pose proof (cofactor_range n_pos Hi Hsq) as Hj.
  rewrite pair_sum_succ in * by lia. rewrite <- Ht in *.
  unfold SigmaZ.power_body, SigmaZ.power_body_with, c_mod, c_floordiv, divides in *. cbn [SigmaZ.n SigmaZ.z].
  destruct (Z.eqb_spec i 0) as [|_]; [lia|]. cbn [bind].
  rewrite (@wrap_int_id (i + 1)) by (unfold INT_MIN, INT_MAX; nia).
  destruct (n mod i =? 0); cbn [bind]; [|do 2 f_equal; lia].
  rewrite (@wrap_int_id (n / i)) by (unfold INT_MIN, INT_MAX; lia).
  pose proof (@divisor_pow_le i ltac:(lia)) as Hpi.
  pose proof (@divisor_pow_le (n / i) ltac:(lia)) as Hpj.
  rewrite !pow_exact by lia. cbn [bind].
  destruct (i =? n / i); cbn [bind].
  - rewrite wrap_long_id by (unfold LONG_MIN, LONG_MAX in *; lia). reflexivity.
  - rewrite (@wrap_long_id (i ^ z + (n / i) ^ z)) by (unfold LONG_MIN, LONG_MAX; lia).
    rewrite wrap_long_id by (unfold LONG_MIN, LONG_MAX in *; lia). reflexivity.
Qed.
End PowerBound.

(** *** The counting loop past the square root

    [count_run] follows the loop [while i * i <= self.n] of the [z = 0]
    branch turn by turn, also where [i * i] has wrapped. *)

Lemma count_run_turn n k total i q r s tf i_f :
  0 < n <= INT_MAX -> i < INT_MAX -> count_carried n total i q r s ->
  count_run (S k) n total i q r s = Some (tf, i_f) ->
  (wrap_int (i * i) <=? n) = false /\ (total, i) = (tf, i_f) \/
  (wrap_int (i * i) <=? n) = true /\
  exists total' q' r' s',
    SigmaZ.count_body (SigmaZ.Make n 0) (total, i) = Return (total', i + 1) /\
    count_carried n total' (i + 1) q' r' s' /\
    count_run k n total' (i + 1) q' r' s' = Some (tf, i_f).
Proof.
  intros Hn Hi [Hi1 [En [Hr [[c Ec] [Hs Ht]]]]] Hrun.
  assert (Hw : wrap_int (i * i) = if s <? 2147483648 then s else s - 4294967296).
  { rewrite Ec, wrap_int_shift. now apply wrap_int_low. }
  cbn [count_run] in Hrun. rewrite <- Hw in Hrun.
  destruct (wrap_int (i * i) <=? n); [right|left].
  2:{ split; [reflexivity|]. now injection Hrun as <- <-. }
  split; [reflexivity|].
  assert (Hq : 0 <= q <= n) by nia.
  assert (Emod : n mod i = r) by (symmetry; apply (Z.mod_unique n i q r); lia).
  assert (Ediv : n / i = q) by (symmetry; apply (Z.div_unique n i q r); lia).
  set (total' := if r =? 0 then (if i =? q then total + 1 else total + 2) else total)
    in *.
  set (s' := if s + 2 * i + 1 <? 4294967296
             then s + 2 * i + 1 else s + 2 * i + 1 - 4294967296) in *.
  assert (Hbody : SigmaZ.count_body (SigmaZ.Make n 0) (total, i)
                  = Return (total', i + 1)).
  { unfold SigmaZ.count_body, c_mod, c_floordiv. cbn [SigmaZ.n].
    destruct (Z.eqb_spec i 0); [lia|]. cbn [bind]. rewrite Emod, Ediv.
    rewrite (@wrap_int_id (i + 1)) by (unfold INT_MIN, INT_MAX in *; lia).
    unfold total'. destruct (r =? 0); cbn [bind]; [|reflexivity].
    rewrite (@wrap_int_id q) by (unfold INT_MIN, INT_MAX in *; lia).
    unfold INT_MAX in *.
    destruct (i =? q); cbn [bind];
      rewrite wrap_long_id by (unfold LONG_MIN, LONG_MAX; lia); reflexivity. }
  assert (Hs' : (exists c', (i + 1) * (i + 1) = s' + c' * 4294967296) /\
                0 <= s' < 4294967296).
  { unfold s', INT_MAX in *.
    destruct (Z.ltb_spec (s + 2 * i + 1) 4294967296).
    - split; [exists c; lia|lia].
    - split; [exists (c + 1); lia|lia]. }
  assert (Ht' : 0 <= total' <= 2 * (i + 1)).
  { unfold total'. destruct (r =? 0); [destruct (i =? q)|]; lia. }
  destruct (0 <=? r - q) eqn:C1; [|destruct (0 <=? r - q + (i + 1)) eqn:C2].
  - apply Z.leb_le in C1. exists total', q, (r - q), s'.
    split; [exact Hbody|]. split; [|exact Hrun].
    unfold count_carried. repeat split; try (apply Hs'); try lia.
  - apply Z.leb_gt in C1. apply Z.leb_le in C2.
    exists total', (q - 1), (r - q + (i + 1)), s'.
    split; [exact Hbody|]. split; [|exact Hrun].
    unfold count_carried. repeat split; try (apply Hs'); try lia.
  - pose proof (Z.div_eucl_eq n (i + 1) ltac:(lia)) as Ee.
    pose proof (Z.mod_pos_bound n (i + 1) ltac:(lia)) as Eb.
    unfold Z.modulo in Eb.
    destruct (Z.div_eucl n (i + 1)) as [q' r'].
    exists total', q', r', s'.
    split; [exact Hbody|]. split; [|exact Hrun].
    unfold count_carried. repeat split; try (apply Hs'); try lia.
Qed.

Lemma count_run_le k : forall n total i q r s tf i_f,
  count_run k n total i q r s = Some (tf, i_f) -> i <= i_f.
Proof.
  induction k as [|k IH]; intros n total i q r s tf i_f Hrun; [discriminate|].
  cbn [count_run] in Hrun.
  destruct (_ <=? n); [|injection Hrun as _ <-; lia].
  destruct (if 0 <=? r - q then _ else _) as [q' r'].
  apply IH in Hrun. lia.
Qed.

Lemma count_run_sound n k tf i_f bound :
  0 < n <= INT_MAX -> i_f < INT_MAX -> i_f < Z.pos bound ->
  count_run k n 0 1 n 0 1 = Some (tf, i_f) ->
  while (SigmaZ.loop_test (SigmaZ.Make n 0)) (SigmaZ.count_body (SigmaZ.Make n 0))
    bound (0, 1) = Return (tf, i_f).
Proof.
  intros Hn Hif Hb Hrun.
  pose (Inv := fun st : Z * Z =>
                 exists k q r s,
                   count_carried n (fst st) (snd st) q r s /\
                   count_run k n (fst st) (snd st) q r s = Some (tf, i_f)).
  assert (Hle : forall st, Inv st -> 1 <= snd st <= i_f).
  { intros st [k' [q [r [s [Hc Hk]]]]]. split; [apply Hc|].
    now apply count_run_le in Hk. }
  assert (Hnn : forall st, Inv st -> 0 <= i_f - snd st).
  { intros st HI. specialize (Hle st HI). lia. }
  assert (Hstep : forall st, Inv st ->
            SigmaZ.loop_test (SigmaZ.Make n 0) st = Return false \/
            (SigmaZ.loop_test (SigmaZ.Make n 0) st = Return true /\
             exists st', SigmaZ.count_body (SigmaZ.Make n 0) st = Return st' /\
                         Inv st' /\ i_f - snd st' < i_f - snd st)).
  { intros [total i] HI. pose proof (Hle _ HI) as Hi.
    destruct HI as [k' [q [r [s [Hc Hk]]]]]. cbn [fst snd] in *.
    destruct k' as [|k']; [discriminate|].
    unfold SigmaZ.loop_test. cbn [SigmaZ.n].
    destruct (@count_run_turn n k' total i q r s tf i_f Hn ltac:(lia) Hc Hk)
      as [[Hf _]|[Ht [total' [q' [r' [s' [Hbody [Hc' Hk']]]]]]]].
    - left. now rewrite Hf.
    - right. rewrite Ht. split; [reflexivity|].
      exists (total', i + 1). split; [exact Hbody|]. split.
      + exists k', q', r', s'. now split.
      + cbn [snd]. lia. }
  assert (H0 : Inv (0, 1)).
  { exists k, n, 0, 1. split; [|exact Hrun].
    unfold count_carried. cbn [fst snd].
    split; [lia|]. split; [lia|]. split; [lia|].
    split; [exists 0; lia|]. split; lia. }
  destruct (@while_rule _ _ _ Inv (fun st => i_f - snd st) Hnn Hstep bound (0, 1) H0)
    as [[total i] [Hw [HI Hc]]].
  { cbn [snd]. lia. }
  rewrite Hw. pose proof (Hle _ HI) as Hi.
  destruct HI as [k' [q [r [s [Hcar Hk]]]]]. cbn [fst snd] in *.
  destruct k' as [|k']; [discriminate|].
  unfold SigmaZ.loop_test in Hc. cbn [SigmaZ.n] in Hc.
  destruct (@count_run_turn n k' total i q r s tf i_f Hn ltac:(lia) Hcar Hk)
    as [[_ E]|[Ht _]].
  - now rewrite E.
  - rewrite Ht in Hc. discriminate.
Qed.

(** ** [SigmaZ]: construction and [compute] *)

Lemma new_inv n z self :
  SigmaZ.new n z = Return self -> 0 < n /\ 0 <= z /\ self = SigmaZ.Make n z.
Proof.
  unfold SigmaZ.new, SigmaZ.__cinit__.
  destruct (Z.leb_spec n 0); [discriminate|].
  destruct (Z.ltb_spec z 0); [discriminate|].
  cbn. intros [= <-]. repeat split; lia.
Qed.

Lemma new_valid n z :
  0 < n -> 0 <= z -> SigmaZ.new n z = Return (SigmaZ.Make n z).
Proof.
  intros Hn Hz. unfold SigmaZ.new, SigmaZ.__cinit__.
  destruct (Z.leb_spec n 0); [lia|].
  destruct (Z.ltb_spec z 0); [lia|]. reflexivity.
Qed.

Lemma compute_value_exact n z :
  0 < n < 46340 * 46340 -> 0 <= z -> n ^ z <= 2 ^ 53 ->
  SigmaZ.compute_value (SigmaZ.Make n z) = Return (sigma_spec n z).
Proof.
  intros Hn Hz Hfit. unfold SigmaZ.compute_value, SigmaZ.compute_value_with.
  fold SigmaZ.power_body. cbn [SigmaZ.z].
  assert (Hbound : 46341 <= Z.pos SigmaZ.loop_bound)
    by (unfold SigmaZ.loop_bound; lia).
  destruct (Z.eqb_spec z 0) as [->|Hz0].
  - destruct (@pair_loop n 0 (fun _ => 1) _ Hn
                (fun i H1 H2 => @count_body_spec n 0 i _ Hn H1 H2 Logic.eq_refl)
                SigmaZ.loop_bound Hbound) as [i Hw].
    rewrite Hw. reflexivity.
  - assert (Hz1 : 1 <= z) by lia.
    destruct (@pair_loop n z (fun d => d ^ z) _ Hn
                (fun i H1 H2 =>
                   @power_body_spec n z (proj1 Hn) Hz1 Hfit i _ (proj2 Hn) H1 H2
                     Logic.eq_refl)
                SigmaZ.loop_bound Hbound) as [i Hw].
    rewrite Hw. reflexivity.
Qed.

(** ** [compute], statement by statement

    A loop of statements that does to the state what a loop on the local
    variables does to them, and keeps what is to be kept of the state, for
    as long as both go on. *)

Section LoopOfStatements.
Variables St Q : Type.
Variable cond_s : stmt St bool.
Variable body_s : stmt St unit.
Variable cond : Q -> outcome bool.
Variable body : Q -> outcome Q.
Variable mk : Q -> St.
Variable kept : St -> Prop.

Hypothesis mk_kept : forall q, kept (mk q).
Hypothesis cond_sim : forall q, cond_s (mk q) = (cond q, mk q).
Hypothesis body_sim :
  forall q, exists s',
    body_s (mk q) = (void (body q), s') /\ kept s' /\
    (forall q', body q = Return q' -> s' = mk q').

Lemma turn_stmt_sim q :
  match turn cond body q with
  | inl q' => turn_stmt cond_s body_s (mk q) = inl (mk q')
  | inr o =>
      exists s', turn_stmt cond_s body_s (mk q) = inr (void o, s') /\ kept s' /\
                 (forall q', o = Return q' -> s' = mk q')
  end.
Proof.
  unfold turn, turn_stmt. rewrite cond_sim.
  destruct (cond q) as [[|]|e| |]; cbn [void].
  - destruct (body_sim q) as [s' [Hb [Hk Hr]]]. rewrite Hb.
    destruct (body q) as [q'|e| |]; cbn [void].
    + now rewrite (Hr q' Logic.eq_refl).
    + exists s'. split; [reflexivity|]. split; [assumption|discriminate].
    + exists s'. split; [reflexivity|]. split; [assumption|discriminate].
    + exists s'. split; [reflexivity|]. split; [assumption|discriminate].
  - exists (mk q). split; [reflexivity|]. split; [apply mk_kept|].
    now intros q' [= <-].
  - exists (mk q). split; [reflexivity|]. split; [apply mk_kept|discriminate].
  - exists (mk q). split; [reflexivity|]. split; [apply mk_kept|discriminate].
  - exists (mk q). split; [reflexivity|]. split; [apply mk_kept|discriminate].
Qed.

Lemma turns_stmt_sim p : forall q,
  match turns cond body p q with
  | inl q' => turns_stmt cond_s body_s p (mk q) = inl (mk q')
  | inr o =>
      exists s', turns_stmt cond_s body_s p (mk q) = inr (void o, s') /\ kept s' /\
                 (forall q', o = Return q' -> s' = mk q')
  end.
Proof.
  induction p as [p IH | p IH | ]; intros q; cbn [turns turns_stmt].
  - pose proof (turn_stmt_sim q) as H0.
    destruct (turn cond body q) as [q0|o].
    + rewrite H0. pose proof (IH q0) as H1.
      destruct (turns cond body p q0) as [q1|o].
      * rewrite H1. apply IH.
      * destruct H1 as [s' [-> H1]]. now exists s'.
    + destruct H0 as [s' [-> H0]]. now exists s'.
  - pose proof (IH q) as H1.
    destruct (turns cond body p q) as [q1|o].
    + rewrite H1. apply IH.
    + destruct H1 as [s' [-> H1]]. now exists s'.
  - apply turn_stmt_sim.
Qed.

Lemma while_stmt_sim bound q :
  exists s',
    while_stmt cond_s body_s bound (mk q) = (void (while cond body bound q), s') /\
    kept s' /\ (forall q', while cond body bound q = Return q' -> s' = mk q').
Proof.
  unfold while, while_stmt. pose proof (turns_stmt_sim bound q) as H.
  destruct (turns cond body bound q) as [q'|o].
  - rewrite H. exists (mk q'). split; [reflexivity|].
    split; [apply mk_kept|discriminate].
  - destruct H as [s' [-> H]]. now exists s'.
Qed.
End LoopOfStatements.

Lemma loop_cond_sim self q :
  SigmaZ.loop_cond (state_of self q) = (SigmaZ.loop_test self q, state_of self q).
Proof. destruct q as [total i]. reflexivity. Qed.

Ltac run_stmts :=
  cbv beta iota delta
    [SigmaZ.count_stmts SigmaZ.power_stmts SigmaZ.next_i bind_stmt
     SigmaZ.get_n SigmaZ.get_z SigmaZ.get_i SigmaZ.get_total
     SigmaZ.set_total SigmaZ.set_i get put eval ret state_of fst snd
     SigmaZ.self SigmaZ.total SigmaZ.i bind void].

Ltac left_at self total i :=
  exists (SigmaZ.State self total i);
  split; [reflexivity|]; split; [reflexivity|discriminate].

Ltac goes_on_from self total i :=
  exists (SigmaZ.State self total i);
  split; [reflexivity|]; split; [reflexivity|]; now intros q' [= <-].

Lemma count_stmts_sim self q :
  exists s',
    SigmaZ.count_stmts (state_of self q) = (void (SigmaZ.count_body self q), s') /\
    SigmaZ.self s' = self /\
    (forall q', SigmaZ.count_body self q = Return q' -> s' = state_of self q').
Proof.
  destruct q as [total i]. unfold SigmaZ.count_body. run_stmts.
  destruct (c_mod (SigmaZ.n self) i) as [r|e| |]; run_stmts;
    try left_at self total i.
  destruct (r =? 0); run_stmts; [|goes_on_from self total (wrap_int (i + 1))].
  destruct (c_floordiv (SigmaZ.n self) i) as [oth_div|e| |]; run_stmts;
    try left_at self total i.
  destruct (i =? oth_div); run_stmts.
  - goes_on_from self (wrap_long (total + 1)) (wrap_int (i + 1)).
  - goes_on_from self (wrap_long (total + 2)) (wrap_int (i + 1)).
Qed.

Lemma power_stmts_sim powf self q :
  exists s',
    SigmaZ.power_stmts powf (state_of self q)
    = (void (SigmaZ.power_body_with powf self q), s') /\
    SigmaZ.self s' = self /\
    (forall q', SigmaZ.power_body_with powf self q = Return q' -> s' = state_of self q').
Proof.
  destruct q as [total i]. unfold SigmaZ.power_body_with. run_stmts.
  destruct (c_mod (SigmaZ.n self) i) as [r|e| |]; run_stmts;
    try left_at self total i.
  destruct (r =? 0); run_stmts; [|goes_on_from self total (wrap_int (i + 1))].
  destruct (c_floordiv (SigmaZ.n self) i) as [oth_div|e| |]; run_stmts;
    try left_at self total i.
  destruct (long_of_double (powf i (SigmaZ.z self))) as [power_i|e| |]; run_stmts;
    try left_at self total i.
  destruct (long_of_double (powf oth_div (SigmaZ.z self))) as [power_oth|e| |];
    run_stmts; try left_at self total i.
  destruct (i =? oth_div); run_stmts.
  - goes_on_from self (wrap_long (total + power_i)) (wrap_int (i + 1)).
  - goes_on_from self (wrap_long (total + wrap_long (power_i + power_oth)))
      (wrap_int (i + 1)).
Qed.

(** The method returns what the loops on [(total, i)] compute from the
    fields, and leaves the object as it found it: no statement of its body
    assigns to [self]. *)
Lemma compute_with_eq powf self :
  SigmaZ.compute_with powf self = (SigmaZ.compute_value_with powf self, self).
Proof.
  unfold SigmaZ.compute_with, SigmaZ.compute_stmts, SigmaZ.compute_value_with.
  cbn [bind_stmt SigmaZ.get_z get SigmaZ.self SigmaZ.z].
  change (SigmaZ.State self 0 1) with (state_of self (0, 1)).
  destruct (SigmaZ.z self =? 0); unfold bind_stmt at 1.
  - destruct (@while_stmt_sim _ _ SigmaZ.loop_cond SigmaZ.count_stmts
                (SigmaZ.loop_test self) (SigmaZ.count_body self) (state_of self)
                (fun s => SigmaZ.self s = self) (fun q => Logic.eq_refl)
                (loop_cond_sim self) (count_stmts_sim self) SigmaZ.loop_bound (0, 1))
      as [s' [-> [Hk Hr]]].
    destruct (while _ _ _ _) as [[total i]|e| |]; cbn [void bind].
    + rewrite (Hr _ Logic.eq_refl). reflexivity.
    + destruct s'. cbn in Hk. now rewrite Hk.
    + destruct s'. cbn in Hk. now rewrite Hk.
    + destruct s'. cbn in Hk. now rewrite Hk.
  - destruct (@while_stmt_sim _ _ SigmaZ.loop_cond (SigmaZ.power_stmts powf)
                (SigmaZ.loop_test self) (SigmaZ.power_body_with powf self)
                (state_of self)
                (fun s => SigmaZ.self s = self) (fun q => Logic.eq_refl)
                (loop_cond_sim self) (power_stmts_sim powf self) SigmaZ.loop_bound
                (0, 1))
      as [s' [-> [Hk Hr]]].
    destruct (while _ _ _ _) as [[total i]|e| |]; cbn [void bind].
    + rewrite (Hr _ Logic.eq_refl). reflexivity.
    + destruct s'. cbn in Hk. now rewrite Hk.
    + destruct s'. cbn in Hk. now rewrite Hk.
    + destruct s'. cbn in Hk. now rewrite Hk.
Qed.

(** Calls in a row all run on the same object. *)
Lemma calls_same powf k self :
  calls powf k self = (nseq k (fst (SigmaZ.compute_with powf self)), self).
Proof.
  induction k as [|k IH]; [reflexivity|]. cbn [calls].
  destruct (SigmaZ.compute_with powf self) as [o self1] eqn:E.
  assert (self1 = self) as -> by (rewrite compute_with_eq in E; now injection E).
  rewrite IH. reflexivity.
Qed.

Lemma compute_eq self :
  SigmaZ.compute self = (SigmaZ.compute_value self, self).
Proof. apply compute_with_eq. Qed.

(** ** Loops that end, with or without a value

    The rule for a loop that may also be left by an exception: a turn on a
    state that satisfies the invariant either leaves the loop with an
    outcome that satisfies [Post], or goes on from a state that satisfies
    the invariant, with a smaller measure. *)

Section WhileEnds.
Variable St : Type.
Variable cond : St -> outcome bool.
Variable body : St -> outcome St.
Variable Inv : St -> Prop.
Variable Post : outcome St -> Prop.
Variable measure : St -> Z.

Hypothesis measure_ge0 : forall s, Inv s -> 0 <= measure s.
Hypothesis turn_step :
  forall s, Inv s ->
    (exists o, turn cond body s = inr o /\ Post o) \/
    (exists s', turn cond body s = inl s' /\ Inv s' /\ measure s' < measure s).

Lemma turns_ends p : forall s,
  Inv s ->
  (exists o, turns cond body p s = inr o /\ Post o) \/
  (exists s', turns cond body p s = inl s' /\ Inv s' /\ measure s' + Z.pos p <= measure s).
Proof.
  induction p as [q IH | q IH | ]; intros s HI; cbn [turns].
  - destruct (turn_step HI) as [[o [Ht HP]] | [s0 [Ht [HI0 Hm0]]]]; rewrite Ht.
    + left. now exists o.
    + destruct (IH _ HI0) as [[o [H1 HP]] | [s1 [H1 [HI1 Hm1]]]]; rewrite H1.
      * left. now exists o.
      * destruct (IH _ HI1) as [[o [H2 HP]] | [s2 [H2 [HI2 Hm2]]]]; rewrite H2.
        -- left. now exists o.
        -- right. exists s2. repeat split; auto; lia.
  - destruct (IH _ HI) as [[o [H1 HP]] | [s1 [H1 [HI1 Hm1]]]]; rewrite H1.
    + left. now exists o.
    + destruct (IH _ HI1) as [[o [H2 HP]] | [s2 [H2 [HI2 Hm2]]]]; rewrite H2.
      * left. now exists o.
      * right. exists s2. repeat split; auto; lia.
  - destruct (turn_step HI) as [[o [Ht HP]] | [s0 [Ht [HI0 Hm0]]]]; rewrite Ht.
    + left. now exists o.
    + right. exists s0. repeat split; auto; lia.
Qed.

Lemma while_ends bound s :
  Inv s -> measure s < Z.pos bound -> Post (while cond body bound s).
Proof.
  intros HI Hm. unfold while.
  destruct (turns_ends bound HI) as [[o [H1 HP]] | [s1 [H1 [HI1 Hm1]]]]; rewrite H1.
  - exact HP.
  - pose proof (measure_ge0 HI1). lia.
Qed.
End WhileEnds.

(** Loops with the same test and bodies that agree on every state. *)
Lemma turns_ext St (cond : St -> outcome bool) (body1 body2 : St -> outcome St) :
  (forall s, body1 s = body2 s) ->
  forall p s, turns cond body1 p s = turns cond body2 p s.
Proof.
  intros Hb.
  assert (Ht : forall s, turn cond body1 s = turn cond body2 s).
  { intros s. unfold turn. now rewrite Hb. }
  induction p as [q IH | q IH | ]; intros s; cbn [turns].
  - rewrite Ht. destruct (turn cond body2 s) as [s0|o]; [|reflexivity].
    rewrite IH. destruct (turns cond body2 q s0) as [s1|o]; [apply IH|reflexivity].
  - rewrite IH. destruct (turns cond body2 q s) as [s1|o]; [apply IH|reflexivity].
  - apply Ht.
Qed.

Lemma while_ext St (cond : St -> outcome bool) (body1 body2 : St -> outcome St) bound s :
  (forall s, body1 s = body2 s) ->
  while cond body1 bound s = while cond body2 bound s.
Proof. intros Hb. unfold while. now rewrite (turns_ext cond Hb). Qed.

(** ** The loops of [SigmaZ.compute] on every C int *)

Lemma wrap_measure_step total total' i :
  in_int i -> i <> 0 ->
  in_int (wrap_int (i + 1)) /\
  wrap_measure (total', wrap_int (i + 1)) < wrap_measure (total, i).
Proof.
  intros Hi Hne. split; [apply wrap_int_range|].
  unfold wrap_measure, in_int, INT_MIN, INT_MAX in *.
  destruct (Z.eq_dec i 2147483647) as [->|Hmax].
  - vm_compute. reflexivity.
  - rewrite wrap_int_id by (unfold INT_MIN, INT_MAX; lia).
    destruct (Z.ltb_spec 0 i), (Z.ltb_spec 0 (i + 1)); lia.
Qed.

Lemma wrap_measure_nonneg s : in_int (snd s) -> 0 <= wrap_measure s.
Proof.
  destruct s as [total i]. unfold wrap_measure, in_int, INT_MIN, INT_MAX. cbn [snd].
  intros Hi. destruct (Z.ltb_spec 0 i); lia.
Qed.

Lemma wrap_long_range x : LONG_MIN <= wrap_long x <= LONG_MAX.
Proof.
  unfold LONG_MIN, LONG_MAX. rewrite wrap_long_mod.
  pose proof (Z.mod_pos_bound (x + 2 ^ 63) (2 ^ 64) ltac:(lia)). lia.
Qed.

Lemma count_body_zero self total :
  SigmaZ.count_body self (total, 0) = Raise ZeroDivisionError.
Proof. reflexivity. Qed.

Lemma power_body_zero powf self total :
  SigmaZ.power_body_with powf self (total, 0) = Raise ZeroDivisionError.
Proof. reflexivity. Qed.

Lemma count_body_next self total i :
  i <> 0 -> LONG_MIN <= total <= LONG_MAX ->
  exists total',
    SigmaZ.count_body self (total, i) = Return (total', wrap_int (i + 1)) /\
    LONG_MIN <= total' <= LONG_MAX.
Proof.
  intros Hi Ht. unfold SigmaZ.count_body, c_mod, c_floordiv.
  destruct (Z.eqb_spec i 0); [contradiction|]. cbn [bind].
  destruct (_ mod i =? 0); cbn [bind]; [|eauto].
  destruct (i =? _); cbn [bind]; eauto using wrap_long_range.
Qed.

Lemma long_of_double_shape d :
  (exists v, long_of_double d = Return v) \/ long_of_double d = Unspecified.
Proof.
  destruct d as [v|lo hi|neg|neg]; cbn [long_of_double]; eauto.
  destruct (_ || _); eauto.
Qed.

(** With the choice of the C library made, the cast has a value. *)
Lemma long_of_double_under libm x y :
  exists v, long_of_double (pow_under libm x y) = Return v.
Proof.
  unfold pow_under. destruct (pow x y) as [v|lo hi|neg|neg]; cbn [long_of_double]; eauto.
Qed.

Lemma power_body_next powf (open : Prop) self total i :
  (forall x y, (exists v, long_of_double (powf x y) = Return v) \/
               (open /\ long_of_double (powf x y) = Unspecified)) ->
  i <> 0 -> LONG_MIN <= total <= LONG_MAX ->
  (exists total',
     SigmaZ.power_body_with powf self (total, i) = Return (total', wrap_int (i + 1)) /\
     LONG_MIN <= total' <= LONG_MAX) \/
  (open /\ SigmaZ.power_body_with powf self (total, i) = Unspecified).
Proof.
  intros Hpow Hi Ht. unfold SigmaZ.power_body_with, c_mod, c_floordiv.
  destruct (Z.eqb_spec i 0); [contradiction|]. cbn [bind].
  destruct (_ mod i =? 0); cbn [bind]; [|eauto].
  destruct (Hpow i (SigmaZ.z self)) as [[v1 ->]|[Ho ->]];
    cbn [bind]; [|now right].
  destruct (Hpow (wrap_int (SigmaZ.n self / i)) (SigmaZ.z self))
    as [[v2 ->]|[Ho ->]]; cbn [bind]; [|now right].
  destruct (i =? _); cbn [bind]; eauto using wrap_long_range.
Qed.

(** A loop of [compute] ends within its bound: with the state in which
    the test fails, [total] a C [long]; with the [ZeroDivisionError] of
    [self.n % 0] once [i] has wrapped around to [0]; or where [pow] is left
    open. *)
Lemma pair_loop_ends self body (open : Prop) :
  (forall total, body (total, 0) = Raise ZeroDivisionError) ->
  (forall total i, i <> 0 -> LONG_MIN <= total <= LONG_MAX ->
     (exists total', body (total, i) = Return (total', wrap_int (i + 1)) /\
                     LONG_MIN <= total' <= LONG_MAX) \/
     (open /\ body (total, i) = Unspecified)) ->
  (exists total i,
     while (SigmaZ.loop_test self) body SigmaZ.loop_bound (0, 1) = Return (total, i) /\
     LONG_MIN <= total <= LONG_MAX) \/
  while (SigmaZ.loop_test self) body SigmaZ.loop_bound (0, 1) = Raise ZeroDivisionError \/
  (open /\ while (SigmaZ.loop_test self) body SigmaZ.loop_bound (0, 1) = Unspecified).
Proof.
  intros Hzero Hnext.
  apply (@while_ends _ (SigmaZ.loop_test self) body
           (fun s => LONG_MIN <= fst s <= LONG_MAX /\ in_int (snd s))
           (fun o => (exists total i, o = Return (total, i) /\
                                      LONG_MIN <= total <= LONG_MAX) \/
                     o = Raise ZeroDivisionError \/ (open /\ o = Unspecified))
           wrap_measure (fun s H => wrap_measure_nonneg (proj2 H))).
  - intros [total i] [Ht Hi]. cbn [fst snd] in Ht, Hi. unfold turn, SigmaZ.loop_test.
    destruct (wrap_int (i * i) <=? SigmaZ.n self).
    2:{ left. exists (Return (total, i)). split; [reflexivity|]. left.
        exists total, i. now split. }
    destruct (Z.eq_dec i 0) as [->|Hne].
    + rewrite Hzero. left. eauto.
    + destruct (Hnext total i Hne Ht) as [[total' [-> Ht']]|[Ho ->]].
      * right. exists (total', wrap_int (i + 1)). split; [reflexivity|].
        destruct (@wrap_measure_step total total' i Hi Hne) as [Hi' Hm].
        split; [split; assumption|assumption].
      * left. exists Unspecified. split; [reflexivity|]. right. right. now split.
  - unfold in_int, INT_MIN, INT_MAX, LONG_MIN, LONG_MAX. cbn [fst snd]. lia.
  - reflexivity.
Qed.

(** With [n = INT_MAX] the test [i * i <= n] never fails. *)
Lemma pair_loop_int_max self body :
  INT_MAX <= SigmaZ.n self ->
  (forall total, body (total, 0) = Raise ZeroDivisionError) ->
  (forall total i, i <> 0 -> LONG_MIN <= total <= LONG_MAX ->
     exists total', body (total, i) = Return (total', wrap_int (i + 1)) /\
                    LONG_MIN <= total' <= LONG_MAX) ->
  while (SigmaZ.loop_test self) body SigmaZ.loop_bound (0, 1) = Raise ZeroDivisionError.
Proof.
  intros Hn Hzero Hnext.
  apply (@while_ends _ (SigmaZ.loop_test self) body
           (fun s => LONG_MIN <= fst s <= LONG_MAX /\ in_int (snd s))
           (fun o => o = Raise ZeroDivisionError)
           wrap_measure (fun s H => wrap_measure_nonneg (proj2 H))).
  - intros [total i] [Ht Hi]. cbn [fst snd] in Ht, Hi. unfold turn, SigmaZ.loop_test.
    pose proof (wrap_int_range (i * i)) as [_ Hw].
    destruct (Z.leb_spec (wrap_int (i * i)) (SigmaZ.n self)); [|lia].
    destruct (Z.eq_dec i 0) as [->|Hne].
    + rewrite Hzero. left. eauto.
    + destruct (Hnext total i Hne Ht) as [total' [-> Ht']]. right.
      exists (total', wrap_int (i + 1)). split; [reflexivity|].
      destruct (@wrap_measure_step total total' i Hi Hne) as [Hi' Hm].
      split; [split; assumption|assumption].
  - unfold in_int, INT_MIN, INT_MAX, LONG_MIN, LONG_MAX. cbn [fst snd]. lia.
  - reflexivity.
Qed.

(** What [compute] does on any instance: the ways its loop ends. *)
Lemma compute_value_with_ends powf (open : Prop) self :
  (forall x y, (exists v, long_of_double (powf x y) = Return v) \/
               (open /\ long_of_double (powf x y) = Unspecified)) ->
  (exists v, SigmaZ.compute_value_with powf self = Return v /\
             LONG_MIN <= v <= LONG_MAX) \/
  SigmaZ.compute_value_with powf self = Raise ZeroDivisionError \/
  (open /\ SigmaZ.z self <> 0 /\ SigmaZ.compute_value_with powf self = Unspecified).
Proof.
  intros Hpow. unfold SigmaZ.compute_value_with.
  destruct (Z.eqb_spec (SigmaZ.z self) 0) as [Hz0|Hz0].
  - destruct (@pair_loop_ends self (SigmaZ.count_body self) False
                (@count_body_zero self)
                (fun total i Hi Ht => or_introl (@count_body_next self total i Hi Ht)))
      as [[total [i [-> Ht]]]|[->|[[] _]]]; cbn [bind]; eauto.
  - destruct (@pair_loop_ends self (SigmaZ.power_body_with powf self) open
                (@power_body_zero powf self)
                (fun total i Hi Ht => @power_body_next powf open self total i Hpow Hi Ht))
      as [[total [i [-> Ht]]]|[->|[Ho ->]]]; cbn [bind]; eauto.
Qed.

Lemma compute_value_ends self :
  (exists v, SigmaZ.compute_value self = Return v /\ LONG_MIN <= v <= LONG_MAX) \/
  SigmaZ.compute_value self = Raise ZeroDivisionError \/
  (SigmaZ.z self <> 0 /\ SigmaZ.compute_value self = Unspecified).
Proof.
  destruct (@compute_value_with_ends pow True self) as [H|[H|[_ H]]]; auto.
  intros x y. destruct (long_of_double_shape (pow x y)); auto.
Qed.

(** With the choice of the C library made, [compute] returns a C [long] or
    raises [ZeroDivisionError], and leaves the object as it found it. *)
Lemma compute_under_ends libm self :
  (exists v, SigmaZ.compute_with (pow_under libm) self = (Return v, self) /\
             LONG_MIN <= v <= LONG_MAX) \/
  SigmaZ.compute_with (pow_under libm) self = (Raise ZeroDivisionError, self).
Proof.
  rewrite compute_with_eq.
  destruct (@compute_value_with_ends (pow_under libm) False self)
    as [[v [-> Hv]]|[->|[[] _]]]; eauto.
  intros x y. left. apply long_of_double_under.
Qed.

Lemma compute_under_int_max libm self :
  INT_MAX <= SigmaZ.n self ->
  SigmaZ.compute_with (pow_under libm) self = (Raise ZeroDivisionError, self).
Proof.
  intros Hn. rewrite compute_with_eq. f_equal. unfold SigmaZ.compute_value_with.
  destruct (SigmaZ.z self =? 0).
  - rewrite (@pair_loop_int_max self (SigmaZ.count_body self) Hn
               (@count_body_zero self) (@count_body_next self)). reflexivity.
  - rewrite (@pair_loop_int_max self (SigmaZ.power_body_with (pow_under libm) self) Hn
               (@power_body_zero _ self)); [reflexivity|].
    intros total i Hi Ht.
    destruct (@power_body_next (pow_under libm) False self total i) as [H|[[] _]];
      trivial.
    intros x y. left. apply long_of_double_under.
Qed.

(** *** The choice of the C library against the choice left open

    Where [compute] has an outcome with the choice of [pow] left open, it
    has that outcome under every choice. *)

Lemma floor53_le_ceil53 v : floor53 v <= ceil53 v.
Proof.
  unfold ceil53. destruct (Z.eqb_spec (floor53 v) v); [lia|].
  pose proof (proj2 (Z.shiftl_nonneg 1 (Z.log2 v - 52)) ltac:(lia)). lia.
Qed.

Lemma pow_between x y lo hi : pow x y = Between lo hi -> lo <= hi.
Proof.
  pose proof (@floor53_le_ceil53 (Z.abs x ^ y)) as Hv.
  unfold pow. cbv zeta.
  repeat match goal with
         | |- context [if ?b then _ else _] => destruct b
         end;
    intros H; try discriminate; injection H as <- <-; lia.
Qed.

Lemma long_of_double_refines libm x y :
  long_of_double (pow x y) = Unspecified \/
  long_of_double (pow_under libm x y) = long_of_double (pow x y).
Proof.
  unfold pow_under. destruct (pow x y) as [v|lo hi|neg|neg] eqn:E; auto.
  apply pow_between in E. cbn [long_of_double]. unfold LONG_MIN, LONG_MAX.
  destruct (Z.ltb_spec 9223372036854775807 lo); cbn [orb].
  - right. f_equal. destruct (libm x y).
    + destruct (Z.leb_spec (-9223372036854775808) hi); cbn [andb]; [|reflexivity].
      destruct (Z.leb_spec hi 9223372036854775807); [lia|reflexivity].
    + destruct (Z.leb_spec (-9223372036854775808) lo); cbn [andb]; [|reflexivity].
      destruct (Z.leb_spec lo 9223372036854775807); [lia|reflexivity].
  - destruct (Z.leb_spec hi (-9223372036854775808)); [|now left].
    right. f_equal. destruct (libm x y).
    + destruct (Z.leb_spec (-9223372036854775808) hi); cbn [andb]; [|reflexivity].
      destruct (Z.leb_spec hi 9223372036854775807); lia.
    + destruct (Z.leb_spec (-9223372036854775808) lo); cbn [andb]; [|reflexivity].
      destruct (Z.leb_spec lo 9223372036854775807); lia.
Qed.

Lemma power_body_refines libm self q :
  SigmaZ.power_body self q = Unspecified \/
  SigmaZ.power_body_with (pow_under libm) self q = SigmaZ.power_body self q.
Proof.
  destruct q as [total i]. unfold SigmaZ.power_body, SigmaZ.power_body_with.
  destruct (c_mod (SigmaZ.n self) i) as [r|e| |]; cbn [bind]; auto.
  destruct (r =? 0); auto.
  destruct (c_floordiv (SigmaZ.n self) i) as [oth_div|e| |]; cbn [bind]; auto.
  destruct (long_of_double_refines libm i (SigmaZ.z self)) as [->| ->];
    cbn [bind]; auto.
  destruct (long_of_double (pow i (SigmaZ.z self))) as [power_i|e| |]; cbn [bind]; auto.
  destruct (long_of_double_refines libm oth_div (SigmaZ.z self)) as [->| ->];
    cbn [bind]; auto.
Qed.

Section Refinement.
Variable St : Type.
Variable cond : St -> outcome bool.
Variables body1 body2 : St -> outcome St.

Hypothesis body_refines : forall s, body1 s = Unspecified \/ body2 s = body1 s.

Lemma turn_refines s :
  turn cond body1 s = inr Unspecified \/ turn cond body2 s = turn cond body1 s.
Proof.
  unfold turn. destruct (cond s) as [[|]|e| |]; auto.
  destruct (body_refines s) as [->| ->]; auto.
Qed.

Lemma turns_refines p : forall s,
  turns cond body1 p s = inr Unspecified \/
  turns cond body2 p s = turns cond body1 p s.
Proof.
  induction p as [p IH | p IH | ]; intros s; cbn [turns].
  - destruct (turn_refines s) as [->| ->]; auto.
    destruct (turn cond body1 s) as [s0|o]; auto.
    destruct (IH s0) as [->| ->]; auto.
    destruct (turns cond body1 p s0) as [s1|o]; auto.
  - destruct (IH s) as [->| ->]; auto.
    destruct (turns cond body1 p s) as [s1|o]; auto.
  - apply turn_refines.
Qed.

Lemma while_refines bound s :
  while cond body1 bound s = Unspecified \/
  while cond body2 bound s = while cond body1 bound s.
Proof.
  unfold while. destruct (turns_refines bound s) as [->| ->]; auto.
Qed.
End Refinement.

Lemma compute_open_sound libm self :
  fst (SigmaZ.compute self) = Unspecified \/
  SigmaZ.compute_with (pow_under libm) self = SigmaZ.compute self.
Proof.
  rewrite compute_eq, compute_with_eq. cbn [fst].
  unfold SigmaZ.compute_value, SigmaZ.compute_value_with.
  destruct (SigmaZ.z self =? 0); [now right|].
  destruct (@while_refines _ (SigmaZ.loop_test self) (SigmaZ.power_body_with pow self)
              (SigmaZ.power_body_with (pow_under libm) self)
              (power_body_refines libm self) SigmaZ.loop_bound (0, 1)) as [->| ->]; auto.
Qed.

(** For [z = 0] the general loop does what the counting loop does:
    [pow(i, 0)] is [1]. *)
Lemma power_body_count self s :
  SigmaZ.z self = 0 -> SigmaZ.power_body self s = SigmaZ.count_body self s.
Proof.
  intros Hz. destruct s as [total i]. unfold SigmaZ.power_body, SigmaZ.power_body_with, SigmaZ.count_body.
  rewrite Hz. reflexivity.
Qed.

(** ** Counting coprimes: the link with MathComp's [totient]

    [coprime_count] on [Z] is MathComp's [totient] on [nat], from which it
    inherits multiplicativity and the value at prime powers. *)

Section Totient.
Import ssreflect.
Local Open Scope nat_scope.

Lemma dvdn_Zdivide (d m : nat) :
  reflect (Z.of_nat d | Z.of_nat m)%Z (d %| m).
Proof.
  apply: (iffP dvdnP) => [[k ->]|[q E]].
    by exists (Z.of_nat k); rw -multE Nat2Z.inj_mul.
  case: d E => [|d] E.
    by exists 0; rw muln0; apply: Nat2Z.inj; rw E; lia.
  exists (Z.to_nat q); apply: Nat2Z.inj.
  rw -multE Nat2Z.inj_mul Z2Nat.id //; nia.
Qed.

Lemma Zgcd_of_nat (a b : nat) :
  Z.gcd (Z.of_nat a) (Z.of_nat b) = Z.of_nat (gcdn a b).
Proof.
  apply: Z.gcd_unique.
  - exact: Nat2Z.is_nonneg.
  - apply/dvdn_Zdivide; exact: dvdn_gcdl.
  - apply/dvdn_Zdivide; exact: dvdn_gcdr.
  - move=> q qa qb; apply/Z.divide_abs_l; rw -Zabs2Nat.id_abs.
    apply/dvdn_Zdivide; rw dvdn_gcd; apply/andP; split.
      by apply/dvdn_Zdivide; rw Zabs2Nat.id_abs; apply/Z.divide_abs_l.
    by apply/dvdn_Zdivide; rw Zabs2Nat.id_abs; apply/Z.divide_abs_l.
Qed.

Lemma Zof_nat_exp (a e : nat) : Z.of_nat (a ^ e) = (Z.of_nat a ^ Z.of_nat e)%Z.
Proof.
  elim: e => [|e IH]; first by [].
  rw expnS -multE Nat2Z.inj_mul IH Nat2Z.inj_succ Z.pow_succ_r //.
  exact: Nat2Z.is_nonneg.
Qed.

Lemma sum_upto_bigop (F : nat -> nat) (k : nat) :
  sum_upto (fun x => Z.of_nat (F (Z.to_nat x))) k
  = Z.of_nat (\sum_(1 <= d < k.+1) F d).
Proof.
  elim: k => [|k IH]; first by rw big_geq.
  rw big_nat_recr // [X in _ = X]/= -plusE Nat2Z.inj_add -IH.
  by rw -{2}(Nat2Z.id k.+1).
Qed.

Lemma coprime_count_totient (m : nat) :
  0 < m -> coprime_count (Z.of_nat m) = Z.of_nat (totient m).
Proof.
  move=> m_gt0; rw /coprime_count Nat2Z.id.
  pose F (d : nat) := nat_of_bool (coprime m d).
  rw (@sum_upto_ext _ (fun x => Z.of_nat (F (Z.to_nat x)))).
    move=> d [d1 dm].
    rw -{1}(Z2Nat.id d); first by lia.
    rw Zgcd_of_nat /F /coprime gcdnC.
    case: eqP => [->|ne1] /=; first by [].
    by case: Z.eqb_spec => // E; case: ne1; apply: Nat2Z.inj.
  rw (sum_upto_bigop F) totient_count_coprime /F; congr Z.of_nat.
  rw big_nat_recr //= [in RHS]big_ltn //=.
  by rw /coprime gcdn0 gcdnn addnC.
Qed.

Lemma coprime_count_mul (a b : Z) :
  (0 < a)%Z -> (0 < b)%Z -> Z.gcd a b = 1%Z ->
  coprime_count (a * b) = (coprime_count a * coprime_count b)%Z.
Proof.
  move=> a0 b0 ab.
  have ea : a = Z.of_nat (Z.to_nat a) by rw Z2Nat.id; lia.
  have eb : b = Z.of_nat (Z.to_nat b) by rw Z2Nat.id; lia.
  have a0' : 0 < Z.to_nat a by apply/ltP; lia.
  have b0' : 0 < Z.to_nat b by apply/ltP; lia.
  move: ab; rw ea eb Zgcd_of_nat => /(Nat2Z.inj _ 1) ab.
  rw -Nat2Z.inj_mul multE !coprime_count_totient ?muln_gt0 ?a0' //.
  by rw totient_coprime ?/coprime ?ab // -multE Nat2Z.inj_mul.
Qed.

Lemma prime_of_Z (p : Z) : Z.prime p -> prime (Z.to_nat p).
Proof.
  move=> pp; have p1 := Z.prime_ge_2 _ pp.
  apply/primeP; split; first by apply/ltP; lia.
  move=> d /dvdnP [k E].
  have dp : (Z.of_nat d | p)%Z.
    exists (Z.of_nat k); rw -Nat2Z.inj_mul multE -E Z2Nat.id; lia.
  case: (Z.divide_prime_r _ _ pp dp) => [|[|[|]]] ed.
  - lia.
  - lia.
  - by apply/orP; left; apply/eqP; lia.
  - by apply/orP; right; apply/eqP; lia.
Qed.

Lemma coprime_count_prime_pow (p k : Z) :
  Z.prime p -> (1 <= k)%Z ->
  coprime_count (p ^ k) = (p ^ (k - 1) * (p - 1))%Z.
Proof.
  move=> pp k1; have p1 := Z.prime_ge_2 _ pp.
  have pp' := prime_of_Z pp.
  have ep : p = Z.of_nat (Z.to_nat p) by rw Z2Nat.id; lia.
  have ek : k = Z.of_nat (Z.to_nat k) by rw Z2Nat.id; lia.
  have k0 : 0 < Z.to_nat k by apply/ltP; lia.
  rw {1}ep {1}ek -Zof_nat_exp coprime_count_totient.
    by rw expn_gt0 prime_gt0.
  rw totient_pfactor // -multE Nat2Z.inj_mul Zof_nat_exp -ep.
  have -> : Z.of_nat (Z.to_nat p).-1 = (p - 1)%Z by lia.
  have -> : Z.of_nat (Z.to_nat k).-1 = (k - 1)%Z by lia.
  lia.
Qed.
End Totient.

(** ** [euler_phi]: the trial division *)

Lemma coprime_count_1 : coprime_count 1 = 1.
Proof. reflexivity. Qed.

Lemma coprime_count_nonneg n : 0 <= coprime_count n.
Proof.
  unfold coprime_count. apply sum_upto_nonneg. intros d _.
  destruct (Z.gcd d n =? 1); lia.
Qed.

Lemma coprime_count_pos n : 0 < n -> 1 <= coprime_count n.
Proof.
  intros Hn. unfold coprime_count.
  replace (Z.to_nat n) with (S (Z.to_nat (n - 1))) by lia.
  assert (G : forall k, 1 <= sum_upto (fun k => if Z.gcd k n =? 1 then 1 else 0) (S k)).
  { induction k as [|k IH].
    - cbn [sum_upto]. change (Z.of_nat 1) with 1. rewrite Z.gcd_1_l. cbn. lia.
    - cbn [sum_upto] in *. destruct (Z.gcd (Z.of_nat (S (S k))) n =? 1); lia. }
  apply G.
Qed.

Lemma coprime_count_lt n : 1 < n -> coprime_count n < n.
Proof.
  intros Hn. unfold coprime_count.
  replace (Z.to_nat n) with (S (Z.to_nat (n - 1))) by lia.
  cbn [sum_upto]. replace (Z.of_nat (S (Z.to_nat (n - 1)))) with n by lia.
  rewrite Z.gcd_diag, Z.abs_eq by lia.
  destruct (Z.eqb_spec n 1); [lia|].
  assert (G : forall k, sum_upto (fun k => if Z.gcd k n =? 1 then 1 else 0) k <= Z.of_nat k).
  { induction k as [|k IH]; cbn [sum_upto]; [lia|].
    destruct (Z.gcd (Z.of_nat (S k)) n =? 1); lia. }
  specialize (G (Z.to_nat (n - 1))). lia.
Qed.

Lemma coprime_count_prime p : Z.prime p -> coprime_count p = p - 1.
Proof.
  intros Hp. rewrite <- (Z.pow_1_r p) at 1.
  rewrite coprime_count_prime_pow by (trivial; lia).
  change (1 - 1) with 0. rewrite Z.pow_0_r. lia.
Qed.

Lemma no_small_div_prime m i :
  0 < i -> 1 < m -> m < i * i -> no_small_div m i -> Z.prime m.
Proof.
  intros Hi Hm Hsq Hns. split; [exact Hm|].
  intros d Hd [q Hq].
  destruct (Z_lt_le_dec d i) as [Hlt|Hge].
  - apply (Hns d); [lia|]. now exists q.
  - assert (Hq1 : 1 < q) by nia.
    assert (Hqi : q < i) by nia.
    apply (Hns q); [lia|]. exists d. lia.
Qed.

Lemma no_small_div_self_prime m i :
  1 < i -> (i | m) -> no_small_div m i -> Z.prime i.
Proof.
  intros Hi Him Hns. split; [exact Hi|].
  intros d Hd Hdi. apply (Hns d Hd). now apply Z.divide_trans with i.
Qed.

Lemma no_small_div_ge m i : 1 < m -> no_small_div m i -> i <= m.
Proof.
  intros Hm Hns. destruct (Z_lt_le_dec m i) as [Hlt|]; [|assumption].
  exfalso. apply (Hns m); [lia|]. apply Z.divide_refl.
Qed.

Lemma odd_not_divide_even m d : m mod 2 = 1 -> d mod 2 = 0 -> ~ (d | m).
Proof.
  intros Hm Hd [q Hq].
  pose proof (Z.div_mod d 2 ltac:(lia)) as Ed. rewrite Hd in Ed.
  assert (m mod 2 = 0); [|lia].
  rewrite Hq, Ed. replace (q * (2 * (d / 2) + 0)) with (q * (d / 2) * 2) by lia.
  apply Z.mod_mul. lia.
Qed.

Lemma coprime_mul_inv a b c :
  Z.gcd a (b * c) = 1 -> Z.gcd a b = 1 /\ Z.gcd a c = 1.
Proof.
  intros H.
  assert (G : forall g x, 0 <= g -> (g | a) -> (g | x) -> (x | b * c) -> g = 1).
  { intros g x Hg Hga Hgx Hx.
    assert (Hd : (g | Z.gcd a (b * c))).
    { apply Z.gcd_greatest; [assumption|]. now apply Z.divide_trans with x. }
    rewrite H in Hd. apply Z.divide_1_r_nonneg in Hd; assumption. }
  split.
  - apply (G _ b); [apply Z.gcd_nonneg|apply Z.gcd_divide_l|apply Z.gcd_divide_r|].
    apply Z.divide_factor_l.
  - apply (G _ c); [apply Z.gcd_nonneg|apply Z.gcd_divide_l|apply Z.gcd_divide_r|].
    apply Z.divide_factor_r.
Qed.

Lemma partial_phi_init n0 : partial_phi n0 n0 n0.
Proof.
  exists 1. rewrite coprime_count_1, Z.gcd_1_l. repeat split; lia.
Qed.

Lemma partial_phi_done n0 r : partial_phi n0 1 r -> r = coprime_count n0.
Proof. intros [s [Hs [-> [_ ->]]]]. now rewrite !Z.mul_1_r. Qed.

Lemma partial_phi_range n0 m r :
  0 < m -> 0 < n0 -> partial_phi n0 m r -> 0 < r <= n0.
Proof.
  intros Hm Hn [s [Hs [-> [_ ->]]]].
  pose proof (coprime_count_pos Hs).
  destruct (Z.eq_dec s 1) as [->|]; [rewrite coprime_count_1; lia|].
  pose proof (@coprime_count_lt s ltac:(lia)). nia.
Qed.

(** Treating the prime [p], which divides [m] exactly [k >= 1] times. *)
Lemma partial_phi_step n0 m r p k m' :
  partial_phi n0 m r -> Z.prime p -> 1 <= k -> 0 < m' ->
  m = p ^ k * m' -> ~ (p | m') ->
  partial_phi n0 m' (r - r / p).
Proof.
  intros [s [Hs [Hn [Hg Hr]]]] Hp Hk Hm' Em Hpm.
  pose proof (Z.prime_ge_2 _ Hp) as Hp2.
  assert (Hpk : 0 < p ^ k) by (apply Z.pow_pos_nonneg; lia).
  assert (Hpk1 : 0 < p ^ (k - 1)) by (apply Z.pow_pos_nonneg; lia).
  assert (Epk : p ^ k = p * p ^ (k - 1)).
  { rewrite <- Z.pow_succ_r by lia. f_equal. lia. }
  rewrite Em in Hg. destruct (coprime_mul_inv Hg) as [Hg1 Hg2].
  exists (s * p ^ k). repeat split.
  - nia.
  - rewrite Hn, Em. ring.
  - apply Z.coprime_mul_l; [exact Hg2|].
    apply Z.coprime_pow_l; [lia|]. now apply Z.coprime_prime_l.
  - rewrite coprime_count_mul, (coprime_count_prime_pow Hp Hk) by (trivial; lia).
    assert (Er : r = coprime_count s * p ^ (k - 1) * m' * p).
    { rewrite Hr, Em, Epk. ring. }
    rewrite Er at 2. rewrite Z.div_mul by lia. rewrite Er. ring.
Qed.

(** The last prime: [m] itself. *)
Lemma partial_phi_last n0 m r :
  partial_phi n0 m r -> Z.prime m -> r - r / m = coprime_count n0.
Proof.
  intros [s [Hs [Hn [Hg Hr]]]] Hp.
  pose proof (Z.prime_ge_2 _ Hp).
  rewrite Hn, coprime_count_mul, (coprime_count_prime Hp) by (trivial; lia).
  rewrite Hr, Z.div_mul by lia. ring.
Qed.

(** *** The inner loop [while n % i == 0: n //= i] *)

Lemma strip_spec i m :
  2 <= i -> 1 <= m <= INT_MAX ->
  exists m' k, strip i m = Return m' /\ 0 <= k /\ m = i ^ k * m' /\
               1 <= m' <= m /\ ~ (i | m').
Proof.
  intros Hi Hm. unfold strip.
  set (test := fun n : Z => r <- c_mod n i ;; Return (r =? 0)).
  set (body := fun n : Z => c_floordiv n i).
  pose (Inv := fun c : Z => 1 <= c <= m /\ exists k, 0 <= k /\ m = i ^ k * c).
  assert (Hnn : forall c, Inv c -> 0 <= c) by (intros c [? _]; lia).
  assert (Hstep : forall c, Inv c ->
            test c = Return false \/
            (test c = Return true /\
             exists c', body c = Return c' /\ Inv c' /\ c' < c)).
  { intros c [Hc [k [Hk Ek]]]. unfold test, body, c_mod, c_floordiv.
    destruct (Z.eqb_spec i 0); [lia|]. cbn [bind].
    destruct (Z.eqb_spec (c mod i) 0) as [E|E]; [right|now left].
    split; [reflexivity|].
    pose proof (Z.div_mod c i ltac:(lia)) as Ec. rewrite E in Ec.
    assert (1 <= c / i < c) by nia.
    rewrite wrap_int_id by (unfold INT_MIN, INT_MAX in *; lia).
    exists (c / i). split; [reflexivity|]. split; [|lia].
    split; [lia|]. exists (k + 1). split; [lia|].
    rewrite Z.pow_add_r, Z.pow_1_r by lia. rewrite Ek, Ec at 1. ring. }
  assert (H0 : Inv m).
  { split; [lia|]. exists 0. rewrite Z.pow_0_r. lia. }
  destruct (@while_rule _ test body Inv (fun c => c) Hnn Hstep strip_bound m H0)
    as [m' [Hw [[Hm' [k [Hk Ek]]] Hc]]].
  { unfold strip_bound, INT_MAX in *. lia. }
  exists m', k. repeat split; try assumption; try lia.
  intros Hd. apply Z.mod_divide in Hd; [|lia].
  unfold test, c_mod in Hc. destruct (Z.eqb_spec i 0); [lia|].
  cbn [bind] in Hc. rewrite Hd in Hc. discriminate.
Qed.

(** *** One candidate [i]: the correction of [result] and the stripping *)

Lemma factor_step n0 i m r :
  0 < n0 <= INT_MAX -> 2 <= i -> 1 <= m <= INT_MAX ->
  no_small_div m i -> partial_phi n0 m r ->
  exists m' r',
    (if m mod i =? 0 then
       q <- c_floordiv r i ;;
       n <- strip i m ;;
       Return (n, wrap_int (r - q))
     else Return (m, r)) = Return (m', r')
    /\ 1 <= m' <= m /\ partial_phi n0 m' r' /\ ~ (i | m')
    /\ (forall d, (d | m') -> (d | m))
    /\ ((i | m) -> m' * i <= m).
Proof.
  intros Hn Hi Hm Hns HR.
  pose proof (@partial_phi_range n0 m r ltac:(lia) ltac:(lia) HR) as Hr.
  destruct (Z.eqb_spec (m mod i) 0) as [E|E].
  - apply Z.mod_divide in E; [|lia].
    assert (Hp : Z.prime i) by (apply (@no_small_div_self_prime m); trivial; lia).
    destruct (@strip_spec i m Hi Hm) as [m' [k [Hs [Hk [Em [Hm' Hd]]]]]].
    assert (Hk1 : 1 <= k).
    { destruct (Z.eq_dec k 0) as [->|]; [|lia].
      rewrite Z.pow_0_r, Z.mul_1_l in Em. subst m'. contradiction. }
    unfold c_floordiv. destruct (Z.eqb_spec i 0); [lia|]. cbn [bind].
    assert (Hq : 0 <= r / i <= r).
    { split; [apply Z.div_pos; lia|]. apply Z.div_le_upper_bound; nia. }
    rewrite (@wrap_int_id (r / i)) by (unfold INT_MIN, INT_MAX in *; lia).
    rewrite Hs. cbn [bind].
    rewrite wrap_int_id by (unfold INT_MIN, INT_MAX in *; lia).
    exists m', (r - r / i). split; [reflexivity|].
    assert (Epk : i ^ k = i * i ^ (k - 1)).
    { rewrite <- Z.pow_succ_r by lia. f_equal. lia. }
    assert (0 < i ^ (k - 1)) by (apply Z.pow_pos_nonneg; lia).
    repeat split; try lia.
    + apply (@partial_phi_step n0 m r i k m'); trivial; lia.
    + assumption.
    + intros d Hdm. rewrite Em. now apply Z.divide_mul_r.
    + intros _. nia.
  - exists m, r. split; [reflexivity|]. repeat split; try lia; trivial.
    + intros Hd. apply E. apply Z.mod_divide; [lia|assumption].
    + intros Hd. exfalso. apply E. apply Z.mod_divide; [lia|assumption].
Qed.

(** *** The outer loop over the odd candidates

    While [i <= 46339] the test [i * i <= n] is exact.  From [i = 46341]
    on, [i * i] exceeds [INT_MAX] and the test compares a wrapped value;
    what is left of [n] is then [1] or a prime, so the loop either stops
    or walks up to [i = n], divides it out, and stops at the latest two
    turns after [i] has wrapped to [INT_MIN + 1]. *)

Section TrialLoop.
Variable n0 : Z.
Hypothesis n0_range : 0 < n0 <= INT_MAX.

Lemma trial_measure_nonneg s : trial_inv n0 s -> 0 <= trial_measure s.
Proof.
  destruct s as [[i m] r]. unfold trial_inv, trial_measure, INT_MIN, INT_MAX.
  intros [_ [H|[[-> | ->] _]]]; [|cbn; lia|cbn; lia].
  destruct (Z.ltb_spec 0 i); lia.
Qed.

Lemma trial_step s :
  trial_inv n0 s ->
  trial_test s = Return false \/
  (trial_test s = Return true /\
   exists s', trial_body s = Return s' /\ trial_inv n0 s' /\
              trial_measure s' < trial_measure s).
Proof.
  destruct s as [[i m] r]. intros [HR [[Hi [Hio [Hmo [Hm Hns]]]]|[Hi ->]]].
  - (* a positive odd candidate *)
    unfold trial_test. destruct (wrap_int (i * i) <=? m); [right|now left].
    split; [reflexivity|]. unfold trial_body, c_mod.
    destruct (Z.eqb_spec i 0); [lia|]. cbn [bind].
    destruct (@factor_step n0 i m r n0_range ltac:(lia) Hm Hns HR)
      as [m' [r' [E [Hm' [HR' [Hd [Hsub Hle]]]]]]].
    rewrite E. cbn [bind].
    assert (Hmo' : m' mod 2 = 1).
    { pose proof (Z.mod_pos_bound m' 2 ltac:(lia)).
      destruct (Z.eq_dec (m' mod 2) 0) as [E0|]; [|lia].
      exfalso. apply Z.mod_divide in E0; [|lia].
      apply (@odd_not_divide_even m 2); [assumption|reflexivity|].
      now apply Hsub. }
    destruct (Z.eq_dec i INT_MAX) as [Ei|Ei].
    + (* the last positive candidate: [i + 2] wraps *)
      exists (INT_MIN + 1, m', r'). split; [now rewrite Ei|].
      assert (m' = 1).
      { destruct (Z.eq_dec m 1) as [->|]; [lia|].
        pose proof (@no_small_div_ge m i ltac:(lia) Hns).
        assert (Em : m = i) by lia.
        assert (Him : (i | m)) by (rewrite Em; apply Z.divide_refl).
        specialize (Hle Him). nia. }
      subst m'. split.
      * split; [assumption|]. right. split; [now left|reflexivity].
      * subst i. reflexivity.
    + exists (i + 2, m', r').
      assert (Hi2 : i + 2 <= INT_MAX).
      { unfold INT_MAX in *. pose proof (Z.div_mod i 2 ltac:(lia)). lia. }
      split; [now rewrite wrap_int_id by (unfold INT_MIN in *; lia)|].
      split.
      * split; [assumption|]. left. repeat split; try lia.
        -- rewrite <- Hio. replace (i + 2) with (i + 1 * 2) by lia.
           apply Z.mod_add. lia.
        -- intros d Hd0 Hdm.
           destruct (Z.eq_dec d i) as [->|]; [contradiction|].
           destruct (Z.eq_dec d (i + 1)) as [->|].
           ++ apply (@odd_not_divide_even m' (i + 1)); trivial.
              pose proof (Z.div_mod i 2 ltac:(lia)) as Ed. rewrite Hio in Ed.
              replace (i + 1) with ((i / 2 + 1) * 2) by lia.
              apply Z.mod_mul. lia.
           ++ apply (Hns d); [lia|]. now apply Hsub.
      * unfold trial_measure.
        destruct (Z.ltb_spec 0 i), (Z.ltb_spec 0 (i + 2)); lia.
  - (* after the wrap: [m = 1] *)
    destruct Hi as [-> | ->]; [right|now left].
    split; [reflexivity|].
    exists (INT_MIN + 3, 1, r). split; [reflexivity|]. split.
    + split; [assumption|]. right. split; [now right|reflexivity].
    + reflexivity.
Qed.

Lemma trial_exit i m r :
  trial_inv n0 (i, m, r) -> trial_test (i, m, r) = Return false ->
  partial_phi n0 m r /\ 1 <= m <= INT_MAX /\ (m = 1 \/ Z.prime m).
Proof.
  intros [HR [[Hi [Hio [Hmo [Hm Hns]]]]|[Hi ->]]] Ht.
  - split; [assumption|]. split; [assumption|].
    destruct (Z.eq_dec m 1) as [|Hm1]; [now left|right].
    apply (@no_small_div_prime m i); try lia; [|assumption].
    destruct (Z_le_gt_dec i 46340) as [Hs|Hs].
    + unfold trial_test in Ht.
      rewrite wrap_int_id in Ht by (unfold INT_MIN, INT_MAX; nia).
      injection Ht as Ht. apply Z.leb_gt in Ht. assumption.
    + unfold INT_MAX in *. nia.
  - split; [assumption|]. unfold INT_MAX. split; [lia|now left].
Qed.

Lemma trial_loop m r :
  partial_phi n0 m r -> 1 <= m <= INT_MAX -> m mod 2 = 1 ->
  exists i' m' r',
    while trial_test trial_body trial_bound (3, m, r) = Return (i', m', r') /\
    partial_phi n0 m' r' /\ 1 <= m' <= INT_MAX /\ (m' = 1 \/ Z.prime m').
Proof.
  intros HR Hm Hmo.
  assert (H0 : trial_inv n0 (3, m, r)).
  { split; [assumption|]. left.
    split; [unfold INT_MAX; lia|]. split; [reflexivity|].
    split; [assumption|]. split; [assumption|].
    intros d Hd. assert (d = 2) as -> by lia.
    now apply odd_not_divide_even. }
  destruct (@while_rule _ trial_test trial_body (trial_inv n0) trial_measure
              trial_measure_nonneg trial_step trial_bound (3, m, r) H0)
    as [[[i' m'] r'] [Hw [HI Hc]]].
  { unfold trial_measure, trial_bound. cbn. lia. }
  exists i', m', r'. split; [assumption|]. now apply (@trial_exit i').
Qed.
End TrialLoop.

(** *** The whole function *)

Lemma euler_phi_body_value n :
  0 < n <= INT_MAX -> euler_phi_body n = Return (coprime_count n).
Proof.
  intros Hn. unfold euler_phi_body.
  destruct (Z.leb_spec n 0); [lia|]. cbn [PyInt_FromLong isinstance_int negb].
  unfold c_mod at 1. cbn [Z.eqb bind].
  pose proof (partial_phi_init n) as HR0.
  assert (Hns0 : no_small_div n 2) by (intros d Hd; lia).
  destruct (@factor_step n 2 n n Hn ltac:(lia) ltac:(lia) Hns0 HR0)
    as [m [r [E [Hm [HR [Hd [Hsub Hle]]]]]]].
  rewrite E. cbn [bind].
  assert (Hmo : m mod 2 = 1).
  { pose proof (Z.mod_pos_bound m 2 ltac:(lia)).
    destruct (Z.eq_dec (m mod 2) 0) as [E0|]; [|lia].
    exfalso. apply Hd. apply Z.mod_divide; [lia|assumption]. }
  destruct (@trial_loop n Hn m r HR ltac:(lia) Hmo)
    as [i' [m' [r' [Hw [HR' [Hm' Hp]]]]]].
  rewrite Hw. cbn [bind].
  pose proof (@partial_phi_range n m' r' ltac:(lia) ltac:(lia) HR') as Hr'.
  destruct Hp as [-> | Hp].
  - cbn [Z.ltb Z.compare bind]. now rewrite (partial_phi_done HR').
  - pose proof (Z.prime_ge_2 _ Hp).
    destruct (Z.ltb_spec 1 m'); [|lia].
    unfold c_floordiv. destruct (Z.eqb_spec m' 0); [lia|]. cbn [bind].
    assert (Hq : 0 <= r' / m' <= r').
    { split; [apply Z.div_pos; lia|]. apply Z.div_le_upper_bound; nia. }
    rewrite (@wrap_int_id (r' / m')) by (unfold INT_MIN, INT_MAX in *; lia).
    rewrite wrap_int_id by (unfold INT_MIN, INT_MAX in *; lia).
    now rewrite (partial_phi_last HR' Hp).
Qed.

Lemma euler_phi_value n :
  0 < n <= INT_MAX -> euler_phi n = Return (coprime_count n).
Proof.
  intros Hn. unfold euler_phi. rewrite euler_phi_body_value by assumption.
  pose proof (@coprime_count_nonneg n).
  cbn. destruct (Z.eqb_spec (coprime_count n) (-1)); [lia|reflexivity].
Qed.

(** ** Reference values of the specification functions *)

Lemma pair_sum_from_app f n k : forall i acc,
  pair_sum_from f n (S k) i acc
  = pair_sum_from f n k i acc
    + (let j := i + Z.of_nat k in
       if divides j n then (if j =? n / j then f j else f j + f (n / j)) else 0).
Proof.
  induction k as [|k IH]; intros i acc.
  - cbn [pair_sum_from]. cbn zeta. change (Z.of_nat 0) with 0.
    now rewrite Z.add_0_r.
  - change (pair_sum_from f n (S (S k)) i acc)
      with (pair_sum_from f n (S k) (i + 1)
              (acc + (if divides i n
                      then (if i =? n / i then f i else f i + f (n / i)) else 0))).
    rewrite IH. cbn [pair_sum_from]. cbn zeta.
    replace (i + 1 + Z.of_nat k) with (i + Z.of_nat (S k)) by lia. reflexivity.
Qed.

Lemma pair_sum_from_eq f n k : pair_sum f n k = pair_sum_from f n k 1 0.
Proof.
  induction k as [|k IH]; [reflexivity|].
  rewrite pair_sum_from_app, <- IH. cbn [pair_sum]. cbn zeta.
  replace (1 + Z.of_nat k) with (Z.of_nat (S k)) by lia. reflexivity.
Qed.

Lemma tau_sigma n : tau_spec n = sigma_spec n 0.
Proof. reflexivity. Qed.

Lemma sigma_spec_sqrt n z :
  0 < n -> sigma_spec n z = pair_sum (fun d => d ^ z) n (Z.to_nat (Z.sqrt n)).
Proof.
  intros Hn. symmetry. apply pair_sum_all; [assumption|].
  pose proof (Z.sqrt_spec n ltac:(lia)) as Hs. cbn zeta in Hs. unfold Z.succ in Hs.
  pose proof (Z.sqrt_nonneg n). rewrite Z2Nat.id by lia. exact Hs.
Qed.

Lemma sigma_spec_long n z :
  0 < n < 46340 * 46340 -> 0 <= z -> n ^ z <= 2 ^ 53 ->
  0 <= sigma_spec n z <= LONG_MAX.
Proof.
  intros Hn Hz Hfit. rewrite sigma_spec_sqrt by lia.
  pose proof (Z.sqrt_spec n ltac:(lia)) as Hs. cbn zeta in Hs. unfold Z.succ in Hs.
  pose proof (Z.sqrt_nonneg n) as Hs0.
  set (s := Z.sqrt n) in *. clearbody s.
  assert (Hk : Z.of_nat (Z.to_nat s) = s) by lia.
  assert (Hs1 : s <= 46340) by nia.
  destruct (Z.eq_dec z 0) as [->|Hz0].
  - pose proof (pair_sum_count_bound n (Z.to_nat s)) as Hb.
    change (fun d : Z => d ^ 0) with (fun _ : Z => 1).
    rewrite Hk in Hb. unfold LONG_MAX. lia.
  - assert (Hz1 : 1 <= z) by lia.
    assert (Hsq : Z.of_nat (Z.to_nat s) * Z.of_nat (Z.to_nat s) <= n)
      by (rewrite Hk; lia).
    pose proof (@pair_sum_pow_bound n z (proj1 Hn) Hz1 Hfit (Z.to_nat s) Hsq) as Hb.
    rewrite Hk in Hb.
    assert (Hr : 0 <= s <= 46340) by lia.
    pose proof (partial_bound_long Hr). lia.
Qed.

Lemma tau_46340_squared : tau_spec 2147395600 = 135.
Proof.
  rewrite tau_sigma, sigma_spec_sqrt by lia.
  change (Z.sqrt 2147395600) with 46340.
  rewrite pair_sum_from_eq. vm_compute. reflexivity.
Qed.

(** * The specification, claim by claim *)

(** ** SigmaZ *)

(** C1, as amended.  For [0 < n < 46340^2] and [z >= 0] with
    [n ^ z <= 2^53], an instance built by [SigmaZ(n, z)] computes exactly
    the sum of [d ^ z] over the positive divisors [d] of [n]; the sum fits
    a 64-bit [long]; the instance is left as it was. *)
Theorem compute_exact n z self :
  0 < n < 46340 * 46340 -> 0 <= z -> n ^ z <= 2 ^ 53 ->
  SigmaZ.new n z = Return self ->
  SigmaZ.compute self = (Return (sigma_spec n z), self) /\
  0 <= sigma_spec n z <= LONG_MAX.
Proof.
  intros Hn Hz Hfit Hnew.
  destruct (new_inv Hnew) as [_ [_ ->]].
  rewrite compute_eq, compute_value_exact by assumption.
  split; [reflexivity|]. now apply sigma_spec_long.
Qed.

Lemma compute_exact_witness :
  (0 < 6 < 46340 * 46340 /\ 0 <= 2 /\ 6 ^ 2 <= 2 ^ 53 /\
   SigmaZ.new 6 2 = Return (SigmaZ.Make 6 2)) /\
  SigmaZ.compute (SigmaZ.Make 6 2) = (Return (sigma_spec 6 2), SigmaZ.Make 6 2) /\
  0 <= sigma_spec 6 2 <= LONG_MAX.
Proof.
  split.
  - repeat split; try lia; reflexivity.
  - apply (@compute_exact 6 2 (SigmaZ.Make 6 2)); try lia; reflexivity.
Defined.

(** C1, the counterexample.  [SigmaZ(2, 63).compute()]: the sum
    [1 + 2^63] exceeds [LONG_MAX]; [pow(2, 63)] is outside the range of
    [long] and the returned value is negative. *)
Lemma compute_overflow_counterexample :
  SigmaZ.new 2 63 = Return (SigmaZ.Make 2 63) /\
  fst (SigmaZ.compute (SigmaZ.Make 2 63)) = Return (-9223372036854775807) /\
  sigma_spec 2 63 = 9223372036854775809 /\
  (LONG_MAX <? sigma_spec 2 63) = true.
Proof. repeat split; vm_compute; reflexivity. Qed.

(** The rounding of [pow]: the sum for [SigmaZ(3, 34)] is
    [16677181699666570] and fits a [long], but [3^34] is odd and lies
    between [2^53] and [2^54], where binary64 numbers are even: [pow]
    returns one of its two neighbours, and [compute] the exact sum minus or
    plus one. *)
Lemma compute_rounding_3_34 :
  sigma_spec 3 34 = 16677181699666570 /\
  pow 3 34 = Between 16677181699666568 16677181699666570 /\
  fst (SigmaZ.compute (SigmaZ.Make 3 34)) = Unspecified.
Proof. repeat split; vm_compute; reflexivity. Qed.

(** C3, at the failing input.  [SigmaZ(2147395600, 0).compute()] returns
    [163], and [2147395600 = 46340^2] has [135] divisors: at [i = 46341]
    the product [i * i] wraps to a negative C int, the loop goes on past the
    square root and counts divisor pairs a second time. *)
Theorem compute_count_past_sqrt :
  SigmaZ.new 2147395600 0 = Return (SigmaZ.Make 2147395600 0) /\
  fst (SigmaZ.compute (SigmaZ.Make 2147395600 0)) = Return 163 /\
  tau_spec 2147395600 = 135.
Proof.
  split; [reflexivity|]. split; [|exact tau_46340_squared].
  rewrite compute_eq. unfold SigmaZ.compute_value, SigmaZ.compute_value_with.
  cbn [fst SigmaZ.z Z.eqb].
  rewrite (@count_run_sound 2147395600 (Z.to_nat 289400) 163 289399);
    [reflexivity|unfold INT_MAX; lia|unfold INT_MAX; lia|
     unfold SigmaZ.loop_bound; lia|].
  vm_compute. reflexivity.
Qed.

(** Below [46340^2] the count is the number of divisors. *)
Lemma compute_count_exact n :
  0 < n < 46340 * 46340 ->
  SigmaZ.compute (SigmaZ.Make n 0) = (Return (tau_spec n), SigmaZ.Make n 0).
Proof.
  intros Hn. rewrite compute_eq.
  rewrite compute_value_exact by (cbn; lia). now rewrite tau_sigma.
Qed.

(** C4, as amended.  [SigmaZ(n, z)] raises [ValueError] exactly when
    [n <= 0] (message "only acc positive integer") or, for [n > 0], when
    [z < 0] (message "exponent must be non-negative"); for [n > 0] and
    [z >= 0] it succeeds and stores both values. *)
Theorem cinit_validation n z :
  (n <= 0 -> SigmaZ.new n z = Raise (ValueError "only acc positive integer")) /\
  (0 < n -> z < 0 ->
   SigmaZ.new n z = Raise (ValueError "exponent must be non-negative")) /\
  (0 < n -> 0 <= z -> SigmaZ.new n z = Return (SigmaZ.Make n z)) /\
  ((exists e, SigmaZ.new n z = Raise e) <-> n <= 0 \/ z < 0).
Proof.
  unfold SigmaZ.new, SigmaZ.__cinit__.
  destruct (Z.leb_spec n 0); [|destruct (Z.ltb_spec z 0)]; cbn.
  - repeat split; try lia; try reflexivity. intros _. eauto.
  - repeat split; try lia; try reflexivity. intros _. eauto.
  - repeat split; try lia; try reflexivity. intros [e He]. discriminate.
Qed.

Lemma cinit_validation_witness :
  (0 < 6 /\ 0 <= 2) /\ SigmaZ.new 6 2 = Return (SigmaZ.Make 6 2).
Proof.
  split; [lia|].
  apply (proj1 (proj2 (proj2 (cinit_validation 6 2)))); lia.
Defined.

(** C4, the counterexample.  For [n = 0] the message is "only acc positive
    integer", not "input must be a positive integer". *)
Lemma cinit_message_counterexample :
  SigmaZ.new 0 0 = Raise (ValueError "only acc positive integer") /\
  String.eqb "only acc positive integer" "input must be a positive integer" = false.
Proof. split; reflexivity. Qed.

(** C7.  [SigmaZ(1, z).compute()] is [1] for every [z >= 0]. *)
Theorem compute_one z :
  0 <= z ->
  exists self, SigmaZ.new 1 z = Return self /\ fst (SigmaZ.compute self) = Return 1.
Proof.
  intros Hz. exists (SigmaZ.Make 1 z). split; [now apply new_valid|].
  rewrite !compute_eq. cbn [fst].
  rewrite compute_value_exact by (rewrite ?Z.pow_1_l; lia).
  unfold sigma_spec. change (Z.to_nat 1) with 1%nat. cbn [sum_upto].
  change (Z.of_nat 1) with 1. change (divides 1 1) with true. cbn iota.
  now rewrite Z.pow_1_l by lia.
Qed.

Lemma compute_one_witness :
  0 <= 5 /\
  exists self, SigmaZ.new 1 5 = Return self /\ fst (SigmaZ.compute self) = Return 1.
Proof. split; [lia|]. apply (@compute_one 5). lia. Defined.

(** C8.  An instance built by [SigmaZ(n, z)] holds [n] and [z].  [compute]
    leaves it as it is: no statement of its body, run on the object,
    assigns to a field.  So any number of calls in a row on the instance
    all return what the first call returns, a value that depends on [n]
    and [z] only; this for [pow] with its choice left open and for every
    [pow] with its choice made, under which the outcome is a number or
    [ZeroDivisionError]. *)
Theorem compute_frame n z self :
  SigmaZ.new n z = Return self ->
  SigmaZ.n self = n /\ SigmaZ.z self = z /\
  snd (SigmaZ.compute self) = self /\
  SigmaZ.compute (snd (SigmaZ.compute self)) = SigmaZ.compute self /\
  (forall other, SigmaZ.n other = n -> SigmaZ.z other = z ->
                 fst (SigmaZ.compute other) = fst (SigmaZ.compute self)) /\
  (forall powf k,
     calls powf k self = (nseq k (fst (SigmaZ.compute_with powf self)), self)) /\
  (forall libm,
     (exists v, SigmaZ.compute_with (pow_under libm) self = (Return v, self)) \/
     SigmaZ.compute_with (pow_under libm) self = (Raise ZeroDivisionError, self)).
Proof.
  intros Hnew. destruct (new_inv Hnew) as [_ [_ ->]]. cbn [SigmaZ.n SigmaZ.z].
  split; [reflexivity|]. split; [reflexivity|].
  split; [now rewrite compute_eq|].
  split; [rewrite !compute_eq; reflexivity|]. split; [|split].
  - intros [n' z']. cbn [SigmaZ.n SigmaZ.z]. now intros -> ->.
  - intros powf k. apply calls_same.
  - intros libm.
    destruct (compute_under_ends libm (SigmaZ.Make n z)) as [[v [E _]]|E]; eauto.
Qed.

Lemma compute_frame_witness :
  SigmaZ.new 6 2 = Return (SigmaZ.Make 6 2) /\
  calls pow 3 (SigmaZ.Make 6 2) = (Return 50 :: Return 50 :: Return 50 :: nil, SigmaZ.Make 6 2).
Proof.
  split; [reflexivity|].
  apply (proj1 (proj2 (proj2 (proj2 (proj2 (proj2
           (@compute_frame 6 2 (SigmaZ.Make 6 2) Logic.eq_refl))))))).
Defined.

(** ** euler_phi *)

(** C2.  For a C int [n > 0], [euler_phi(n)] is the number of [k] in
    [1..n] with [gcd(k, n) = 1]: [1] for [n = 1], [4] for [n = 10], [40] for
    [n = 100], and [n - 1] when [n] is prime. *)
Theorem euler_phi_counts_coprimes n :
  0 < n <= INT_MAX ->
  euler_phi n = Return (coprime_count n) /\
  (n = 1 -> euler_phi n = Return 1) /\
  (n = 10 -> euler_phi n = Return 4) /\
  (n = 100 -> euler_phi n = Return 40) /\
  (Z.prime n -> euler_phi n = Return (n - 1)).
Proof.
  intros Hn. split; [now apply euler_phi_value|].
  repeat split.
  - intros ->. vm_compute. reflexivity.
  - intros ->. vm_compute. reflexivity.
  - intros ->. vm_compute. reflexivity.
  - intros Hp. rewrite euler_phi_value by assumption.
    now rewrite coprime_count_prime.
Qed.

Lemma euler_phi_counts_coprimes_witness :
  0 < 10 <= INT_MAX /\ euler_phi 10 = Return (coprime_count 10).
Proof.
  assert (H : 0 < 10 <= INT_MAX) by (unfold INT_MAX; lia).
  split; [exact H|]. exact (proj1 (@euler_phi_counts_coprimes 10 H)).
Defined.

(** C5.  For a C int [n <= 0], [euler_phi(n)] raises [ValueError]; for
    [n > 0] it returns a number, at least [1] and so never the [-1] that
    [except -1] reserves; an error is never equal to a result. *)
Theorem euler_phi_validation n :
  in_int n ->
  (n <= 0 -> euler_phi n = Raise (ValueError "only positive number will accept")) /\
  (0 < n -> exists v, euler_phi n = Return v /\ 1 <= v) /\
  (forall m, in_int m -> n <= 0 -> 0 < m -> euler_phi n <> euler_phi m).
Proof.
  intros [Hlo Hhi].
  assert (He : n <= 0 ->
               euler_phi n = Raise (ValueError "only positive number will accept")).
  { intros Hn. unfold euler_phi, euler_phi_body.
    destruct (Z.leb_spec n 0); [reflexivity|lia]. }
  assert (Hv : forall m, in_int m -> 0 < m ->
                         exists v, euler_phi m = Return v /\ 1 <= v).
  { intros m [_ Hm] Hm0. exists (coprime_count m).
    split; [apply euler_phi_value; lia|now apply coprime_count_pos]. }
  split; [exact He|]. split.
  - intros Hn. apply Hv; [split|]; assumption.
  - intros m Hm Hn Hm0. rewrite (He Hn).
    destruct (Hv m Hm Hm0) as [v [-> _]]. discriminate.
Qed.

Lemma euler_phi_validation_witness :
  in_int (-5) /\
  euler_phi (-5) = Raise (ValueError "only positive number will accept").
Proof.
  assert (H : in_int (-5)) by (unfold in_int, INT_MIN, INT_MAX; lia).
  split; [exact H|]. apply (proj1 (@euler_phi_validation (-5) H)). lia.
Defined.

(** C6.  For coprime [a, b > 0] whose product is a C int,
    [euler_phi(a * b) = euler_phi(a) * euler_phi(b)]. *)
Theorem euler_phi_multiplicative a b :
  0 < a -> 0 < b -> Z.gcd a b = 1 -> a * b <= INT_MAX ->
  exists va vb,
    euler_phi a = Return va /\ euler_phi b = Return vb /\
    euler_phi (a * b) = Return (va * vb).
Proof.
  intros Ha Hb Hg Hab.
  exists (coprime_count a), (coprime_count b).
  rewrite !euler_phi_value by nia.
  now rewrite coprime_count_mul.
Qed.

Lemma euler_phi_multiplicative_witness :
  (0 < 4 /\ 0 < 25 /\ Z.gcd 4 25 = 1 /\ 4 * 25 <= INT_MAX) /\
  exists va vb,
    euler_phi 4 = Return va /\ euler_phi 25 = Return vb /\
    euler_phi (4 * 25) = Return (va * vb).
Proof.
  assert (H : 4 * 25 <= INT_MAX) by (unfold INT_MAX; lia).
  split; [repeat split; try lia; exact H|].
  apply (@euler_phi_multiplicative 4 25); [lia|lia|reflexivity|exact H].
Defined.

(** C9.  For a C int [n > 1], [1 <= euler_phi(n) <= n - 1]; among the
    accepted [n], [euler_phi(n) = n] only for [n = 1]. *)
Theorem euler_phi_below n :
  0 < n <= INT_MAX ->
  exists v, euler_phi n = Return v /\ 1 <= v <= n /\
            (1 < n -> v <= n - 1) /\ (v = n <-> n = 1).
Proof.
  intros Hn. exists (coprime_count n).
  split; [now apply euler_phi_value|].
  pose proof (@coprime_count_pos n ltac:(lia)) as H1.
  destruct (Z.eq_dec n 1) as [->|Hne].
  - rewrite coprime_count_1. repeat split; lia.
  - pose proof (@coprime_count_lt n ltac:(lia)) as H2. repeat split; lia.
Qed.

Lemma euler_phi_below_witness :
  0 < 100 <= INT_MAX /\
  exists v, euler_phi 100 = Return v /\ 1 <= v <= 100 /\
            (1 < 100 -> v <= 100 - 1) /\ (v = 100 <-> 100 = 1).
Proof.
  assert (H : 0 < 100 <= INT_MAX) by (unfold INT_MAX; lia).
  split; [exact H|]. exact (@euler_phi_below 100 H).
Defined.

(** C10.  On a C int, [isinstance(n, int)] holds, so the [TypeError] branch
    is dead: [euler_phi] never raises [TypeError], and the only exception
    it raises is the [ValueError] for [n <= 0]. *)
Theorem euler_phi_no_type_error n :
  in_int n ->
  isinstance_int (PyInt_FromLong n) = true /\
  (forall msg, euler_phi n <> Raise (TypeError msg)) /\
  (forall e, euler_phi n = Raise e ->
             n <= 0 /\ e = ValueError "only positive number will accept") /\
  (n <= 0 -> euler_phi n = Raise (ValueError "only positive number will accept")).
Proof.
  intros [Hlo Hhi]. split; [reflexivity|].
  destruct (Z_le_gt_dec n 0) as [Hn|Hn].
  - assert (He : euler_phi n = Raise (ValueError "only positive number will accept")).
    { unfold euler_phi, euler_phi_body. destruct (Z.leb_spec n 0); [reflexivity|lia]. }
    rewrite He. split; [discriminate|]. split; [|reflexivity].
    intros e [= <-]. now split.
  - rewrite euler_phi_value by lia.
    split; [discriminate|]. split; [discriminate|lia].
Qed.

Lemma euler_phi_no_type_error_witness :
  in_int 0 /\
  (forall e, euler_phi 0 = Raise e ->
             0 <= 0 /\ e = ValueError "only positive number will accept").
Proof.
  assert (H : in_int 0) by (unfold in_int, INT_MIN, INT_MAX; lia).
  split; [exact H|]. exact (proj1 (proj2 (proj2 (@euler_phi_no_type_error 0 H)))).
Defined.

(** * Further properties of the code *)

(** ** Divisor sums: primes, squares, bounds *)

Lemma sum_upto_le g h k :
  (forall d, 1 <= d <= Z.of_nat k -> g d <= h d) -> sum_upto g k <= sum_upto h k.
Proof.
  induction k as [|k IH]; intros H; cbn [sum_upto]; [lia|].
  assert (g (Z.of_nat (S k)) <= h (Z.of_nat (S k))) by (apply H; lia).
  assert (sum_upto g k <= sum_upto h k) by (apply IH; intros; apply H; lia). lia.
Qed.

Lemma sum_upto_const c k : sum_upto (fun _ => c) k = c * Z.of_nat k.
Proof. induction k as [|k IH]; cbn [sum_upto]; lia. Qed.

Lemma divides_divide d n : d <> 0 -> divides d n = true <-> (d | n).
Proof.
  intros Hd. unfold divides. rewrite Z.eqb_eq. now apply Z.mod_divide.
Qed.

(** A prime has the divisors [1] and itself. *)
Lemma sigma_spec_prime n z : 0 <= z -> Z.prime n -> sigma_spec n z = 1 + n ^ z.
Proof.
  intros Hz Hp. pose proof (Z.prime_ge_2 _ Hp) as Hn. destruct Hp as [_ Hp].
  unfold sigma_spec.
  rewrite (@sum_upto_ext _ (fun d => (if d =? 1 then 1 else 0)
                                     + (if d =? n then n ^ z else 0))).
  - rewrite sum_upto_plus, !sum_upto_point by lia. reflexivity.
  - intros d Hd. rewrite Z2Nat.id in Hd by lia.
    destruct (Z.eqb_spec d 1) as [->|H1].
    + destruct (Z.eqb_spec 1 n); [lia|].
      change (divides 1 n) with (n mod 1 =? 0). rewrite Z.mod_1_r, Z.pow_1_l by lia.
      reflexivity.
    + destruct (Z.eqb_spec d n) as [->|H2].
      * unfold divides. rewrite Z.mod_same by lia. reflexivity.
      * destruct (divides d n) eqn:Dd; [|reflexivity].
        apply divides_divide in Dd; [|lia]. exfalso. apply (Hp d); [lia|assumption].
Qed.

(** [1] and [n] are among the divisors. *)
Lemma sigma_spec_lower n z : 1 < n -> 0 <= z -> 1 + n ^ z <= sigma_spec n z.
Proof.
  intros Hn Hz. unfold sigma_spec.
  pose (h := fun k => (if k =? 1 then 1 else 0) + (if k =? n then n ^ z else 0)).
  assert (Hh : sum_upto h (Z.to_nat n) = 1 + n ^ z).
  { unfold h. rewrite sum_upto_plus, !sum_upto_point by lia. reflexivity. }
  rewrite <- Hh. apply sum_upto_le. intros k Hk. rewrite Z2Nat.id in Hk by lia.
  unfold h. assert (0 < k ^ z) by (apply Z.pow_pos_nonneg; lia).
  destruct (Z.eqb_spec k 1) as [->|H1].
  - destruct (Z.eqb_spec 1 n); [lia|].
    change (divides 1 n) with (n mod 1 =? 0). rewrite Z.mod_1_r, Z.pow_1_l by lia.
    cbn. lia.
  - destruct (Z.eqb_spec k n) as [->|H2].
    + unfold divides. rewrite Z.mod_same by lia. cbn. lia.
    + destruct (divides k n); lia.
Qed.

(** A proper divisor adds to the sum. *)
Lemma sigma_spec_composite n z d :
  0 <= z -> 1 < d < n -> (d | n) -> 1 + n ^ z < sigma_spec n z.
Proof.
  intros Hz Hd Hdn. unfold sigma_spec.
  pose (h := fun k => (if k =? 1 then 1 else 0)
                      + ((if k =? d then 1 else 0) + (if k =? n then n ^ z else 0))).
  assert (Hh : sum_upto h (Z.to_nat n) = 1 + (1 + n ^ z)).
  { unfold h. rewrite !sum_upto_plus, !sum_upto_point by lia. reflexivity. }
  assert (Hle : sum_upto h (Z.to_nat n)
                <= sum_upto (fun k => if divides k n then k ^ z else 0) (Z.to_nat n)).
  { apply sum_upto_le. intros k Hk. rewrite Z2Nat.id in Hk by lia. unfold h.
    assert (Hkz : 1 <= k ^ z).
    { assert (0 < k ^ z) by (apply Z.pow_pos_nonneg; lia). lia. }
    destruct (Z.eqb_spec k 1) as [->|H1].
    - destruct (Z.eqb_spec 1 d); [lia|]. destruct (Z.eqb_spec 1 n); [lia|].
      change (divides 1 n) with (n mod 1 =? 0). rewrite Z.mod_1_r, Z.pow_1_l by lia.
      cbn. lia.
    - destruct (Z.eqb_spec k d) as [->|H2].
      + destruct (Z.eqb_spec d n); [lia|].
        assert (divides d n = true) as -> by (apply divides_divide; [lia|assumption]).
        lia.
      + destruct (Z.eqb_spec k n) as [->|H3].
        * unfold divides. rewrite Z.mod_same by lia. cbn. lia.
        * destruct (divides k n); lia. }
  lia.
Qed.

(** Below the square root each divisor pair adds two to the count. *)
Lemma pair_sum_count_even n k :
  Z.of_nat k * Z.of_nat k < n -> exists c, pair_sum (fun _ => 1) n k = 2 * c.
Proof.
  induction k as [|k IH]; intros Hk; cbn [pair_sum]; [now exists 0|].
  destruct (IH ltac:(lia)) as [c ->].
  set (i := Z.of_nat (S k)) in *.
  destruct (divides i n) eqn:Hd; [|exists c; lia].
  apply divides_spec in Hd; [|lia].
  destruct (Z.eqb_spec i (n / i)) as [E|E]; [exfalso; nia|].
  exists (c + 1). lia.
Qed.

Lemma tau_spec_parity n :
  0 < n ->
  exists c, tau_spec n = 2 * c + (if Z.sqrt n * Z.sqrt n =? n then 1 else 0).
Proof.
  intros Hn. rewrite tau_sigma, sigma_spec_sqrt by assumption.
  change (fun d : Z => d ^ 0) with (fun _ : Z => 1).
  pose proof (Z.sqrt_spec n ltac:(lia)) as Hs. cbn zeta in Hs. unfold Z.succ in Hs.
  set (s := Z.sqrt n) in *. clearbody s.
  assert (Hs1 : 1 <= s) by nia.
  rewrite pair_sum_succ by assumption.
  destruct (@pair_sum_count_even n (Z.to_nat (s - 1))) as [c ->].
  { rewrite Z2Nat.id by lia. nia. }
  destruct (Z.eqb_spec (s * s) n) as [E|E].
  - assert (Ediv : n / s = s) by (rewrite <- E; apply Z.div_mul; lia).
    assert (divides s n = true) as -> by (apply divides_spec; [lia|rewrite Ediv; lia]).
    rewrite Ediv, Z.eqb_refl. exists c. lia.
  - destruct (divides s n) eqn:Hd; [|exists c; lia].
    apply divides_spec in Hd; [|lia].
    destruct (Z.eqb_spec s (n / s)) as [E'|E']; [exfalso; apply E; nia|].
    exists (c + 1). lia.
Qed.

Lemma tau_spec_bounds n : 0 < n -> 1 <= tau_spec n <= 2 * Z.sqrt n.
Proof.
  intros Hn. split.
  - unfold tau_spec.
    apply Z.le_trans with (sum_upto (fun d => if d =? 1 then 1 else 0) (Z.to_nat n)).
    + rewrite sum_upto_point; lia.
    + apply sum_upto_le. intros d Hd. destruct (Z.eqb_spec d 1) as [->|].
      * change (divides 1 n) with (n mod 1 =? 0). now rewrite Z.mod_1_r.
      * destruct (divides d n); lia.
  - rewrite tau_sigma, sigma_spec_sqrt by assumption.
    change (fun d : Z => d ^ 0) with (fun _ : Z => 1).
    pose proof (pair_sum_count_bound n (Z.to_nat (Z.sqrt n))) as Hb.
    pose proof (Z.sqrt_nonneg n). rewrite Z2Nat.id in Hb; lia.
Qed.

(** ** Divisor sums: the link with MathComp's [divisors]

    [sigma_spec] on [Z] is the sum of the powers over MathComp's list
    [divisors], which gives its value at a product of coprimes. *)

Section DivisorSums.
Import ssreflect.
Local Open Scope nat_scope.

Lemma divisors_coprime_mul (m n : nat) :
  0 < m -> 0 < n -> coprime m n ->
  perm_eq (divisors (m * n)) [seq d1 * d2 | d1 <- divisors m, d2 <- divisors n].
Proof.
  move=> m0 n0 co.
  apply: uniq_perm; first exact: divisors_uniq.
    apply: allpairs_uniq; try exact: divisors_uniq.
    move=> [d1 d2] [e1 e2] /allpairsP [[x1 x2] /= [x1m x2n [-> ->]]].
    move=> /allpairsP [[y1 y2] /= [y1m y2n [-> ->]]] E.
    move: x1m x2n y1m y2n; rw -!dvdn_divisors // => x1m x2n y1m y2n.
    have cxy a b : a %| m -> b %| n -> coprime a b.
      by move=> am bn; apply: (coprime_dvdl am); apply: (coprime_dvdr bn).
    have hx : x1 = y1.
      apply/eqP; rw eqn_dvd; apply/andP; split.
        by rw -(Gauss_dvdl _ (cxy _ _ x1m y2n)) -E dvdn_mulr.
      by rw -(Gauss_dvdl _ (cxy _ _ y1m x2n)) E dvdn_mulr.
    have hy : x2 = y2.
      apply/eqP; rw eqn_dvd; apply/andP; split.
        have c := cxy _ _ y1m x2n; rw coprime_sym in c.
        by rw -(Gauss_dvdr _ c) -E dvdn_mull.
      have c := cxy _ _ x1m y2n; rw coprime_sym in c.
      by rw -(Gauss_dvdr _ c) E dvdn_mull.
    by rw hx hy.
  move=> d; rw -dvdn_divisors ?muln_gcd0 ?muln_gt0 ?m0 //.
  apply/idP/allpairsP => [dmn|[[d1 d2] /= [d1m d2n ->]]].
    exists (gcdn d m, gcdn d n) => /=.
    rw -!dvdn_divisors // !dvdn_gcdr; split=> //.
    apply/eqP; rw eqn_dvd; apply/andP; split.
      rw muln_gcdr dvdn_gcd dvdn_mull //=.
      by rw muln_gcdl dvdn_gcd dvdn_mulr //=.
    rw Gauss_dvd ?dvdn_gcdl //.
    apply: (@coprime_dvdl _ m); first exact: dvdn_gcdr.
    by apply: (@coprime_dvdr _ n); first exact: dvdn_gcdr.
  move: d1m d2n; rw -!dvdn_divisors // => d1m d2n.
  exact: dvdn_mul.
Qed.

Lemma sum_divisors_mul (m n e : nat) :
  0 < m -> 0 < n -> coprime m n ->
  \sum_(d <- divisors (m * n)) d ^ e
  = (\sum_(d <- divisors m) d ^ e) * (\sum_(d <- divisors n) d ^ e).
Proof.
  move=> m0 n0 co.
  rw (perm_big _ (divisors_coprime_mul m0 n0 co)) /=.
  rw big_distrlr /= big_allpairs_dep /=.
  apply: eq_bigr => d1 _; apply: eq_bigr => d2 _.
  by rw expnMn.
Qed.

Lemma sum_dvdn_divisors (n : nat) (F : nat -> nat) :
  0 < n ->
  \sum_(1 <= d < n.+1) (if d %| n then F d else 0) = \sum_(d <- divisors n) F d.
Proof.
  move=> n0. rw -big_mkcond -big_filter /=.
  apply: perm_big; apply: uniq_perm.
  - by rw filter_uniq // iota_uniq.
  - exact: divisors_uniq.
  - move=> d; rw mem_filter mem_index_iota -dvdn_divisors //.
    case dn: (d %| n) => //=.
    by rw ltnS (dvdn_leq n0 dn) (dvdn_gt0 n0 dn).
Qed.

Lemma divides_dvdn (d n : nat) :
  0 < d -> divides (Z.of_nat d) (Z.of_nat n) = (d %| n).
Proof.
  move=> d0. apply/idP/idP.
    move/divides_divide => H. apply/dvdn_Zdivide. apply: H.
    by move/ltP: d0; lia.
  move/dvdn_Zdivide => H. apply/divides_divide => //.
  by move/ltP: d0; lia.
Qed.

Lemma sigma_spec_divisors (n e : nat) :
  0 < n ->
  sigma_spec (Z.of_nat n) (Z.of_nat e) = Z.of_nat (\sum_(d <- divisors n) d ^ e).
Proof.
  move=> n0. rw -sum_dvdn_divisors // -sum_upto_bigop /sigma_spec Nat2Z.id.
  apply: sum_upto_ext => d [d1 dn].
  have ed : d = Z.of_nat (Z.to_nat d) by rw Z2Nat.id; lia.
  rw {1 2}ed divides_dvdn; first by apply/ltP; lia.
  by case: (_ %| _); rw // Zof_nat_exp.
Qed.

Lemma sigma_spec_mul (a b z : Z) :
  (0 < a)%Z -> (0 < b)%Z -> Z.gcd a b = 1%Z -> (0 <= z)%Z ->
  sigma_spec (a * b) z = (sigma_spec a z * sigma_spec b z)%Z.
Proof.
  move=> a0 b0 ab z0.
  have ea : a = Z.of_nat (Z.to_nat a) by rw Z2Nat.id; lia.
  have eb : b = Z.of_nat (Z.to_nat b) by rw Z2Nat.id; lia.
  have ez : z = Z.of_nat (Z.to_nat z) by rw Z2Nat.id; lia.
  have a0' : 0 < Z.to_nat a by apply/ltP; lia.
  have b0' : 0 < Z.to_nat b by apply/ltP; lia.
  move: ab; rw ea eb ez Zgcd_of_nat => /(Nat2Z.inj _ 1) ab.
  rw -Nat2Z.inj_mul multE !sigma_spec_divisors ?muln_gt0 ?a0' //.
  by rw sum_divisors_mul ?/coprime ?ab // -multE Nat2Z.inj_mul.
Qed.
End DivisorSums.

(** ** Counting coprimes: composites and parity *)

(** A proper divisor [d] of [n] and [n] itself are not coprime to [n]. *)
Lemma coprime_count_composite n d :
  1 < d < n -> (d | n) -> coprime_count n <= n - 2.
Proof.
  intros Hd Hdn. unfold coprime_count.
  pose (h := fun k => 1 + ((if k =? d then -1 else 0) + (if k =? n then -1 else 0))).
  assert (Hh : sum_upto h (Z.to_nat n) = n - 2).
  { unfold h. rewrite !sum_upto_plus, !sum_upto_point, sum_upto_const by lia. lia. }
  rewrite <- Hh. apply sum_upto_le. intros k Hk. unfold h.
  destruct (Z.eqb_spec k d) as [->|H1].
  - destruct (Z.eqb_spec d n); [lia|].
    apply Z.divide_gcd_iff in Hdn; [|lia]. rewrite Hdn.
    destruct (Z.eqb_spec d 1); lia.
  - destruct (Z.eqb_spec k n) as [->|H2].
    + rewrite Z.gcd_diag, Z.abs_eq by lia. destruct (Z.eqb_spec n 1); lia.
    + destruct (Z.gcd k n =? 1); lia.
Qed.

Lemma sum_upto_shift g k :
  sum_upto g (S k) = g 1 + sum_upto (fun d => g (d + 1)) k.
Proof.
  induction k as [|k IH]; [cbn; lia|].
  change (sum_upto g (S (S k))) with (sum_upto g (S k) + g (Z.of_nat (S (S k)))).
  rewrite IH. cbn [sum_upto].
  replace (Z.of_nat (S k) + 1) with (Z.of_nat (S (S k))) by lia. lia.
Qed.

(** The sum of a function that takes the same value at [d] and at
    [k + 1 - d], over [1..k]: even up to the value in the middle. *)
Lemma sum_upto_sym_even k : forall g,
  (forall d, 1 <= d <= Z.of_nat (Nat.add k k) ->
             g d = g (Z.of_nat (Nat.add k k) + 1 - d)) ->
  exists c, sum_upto g (Nat.add k k) = 2 * c.
Proof.
  induction k as [|k IH]; intros g Hsym; [now exists 0|].
  replace (Nat.add (S k) (S k)) with (S (S (Nat.add k k))) in * by lia.
  change (sum_upto g (S (S (Nat.add k k))))
    with (sum_upto g (S (Nat.add k k)) + g (Z.of_nat (S (S (Nat.add k k))))).
  rewrite sum_upto_shift.
  destruct (IH (fun d => g (d + 1))) as [c Hc].
  { intros d Hd. rewrite (Hsym (d + 1)) by lia. f_equal. lia. }
  rewrite Hc, (Hsym 1) by lia.
  replace (Z.of_nat (S (S (Nat.add k k))) + 1 - 1) with (Z.of_nat (S (S (Nat.add k k))))
    by lia.
  exists (g (Z.of_nat (S (S (Nat.add k k)))) + c). lia.
Qed.

Lemma sum_upto_sym_odd k : forall g,
  (forall d, 1 <= d <= Z.of_nat (S (Nat.add k k)) ->
             g d = g (Z.of_nat (S (Nat.add k k)) + 1 - d)) ->
  exists c, sum_upto g (S (Nat.add k k)) = 2 * c + g (Z.of_nat (S k)).
Proof.
  induction k as [|k IH]; intros g Hsym.
  - exists 0. cbn. lia.
  - replace (Nat.add (S k) (S k)) with (S (S (Nat.add k k))) in * by lia.
    change (sum_upto g (S (S (S (Nat.add k k)))))
      with (sum_upto g (S (S (Nat.add k k))) + g (Z.of_nat (S (S (S (Nat.add k k)))))).
    rewrite sum_upto_shift.
    destruct (IH (fun d => g (d + 1))) as [c Hc].
    { intros d Hd. rewrite (Hsym (d + 1)) by lia. f_equal. lia. }
    rewrite Hc, (Hsym 1) by lia.
    replace (Z.of_nat (S (S (S (Nat.add k k)))) + 1 - 1)
      with (Z.of_nat (S (S (S (Nat.add k k))))) by lia.
    replace (Z.of_nat (S k) + 1) with (Z.of_nat (S (S k))) by lia.
    exists (g (Z.of_nat (S (S (S (Nat.add k k))))) + c). lia.
Qed.

(** [k] is coprime to [n] exactly when [n - k] is. *)
Lemma coprime_count_even n : 3 <= n -> exists c, coprime_count n = 2 * c.
Proof.
  intros Hn. unfold coprime_count.
  set (g := fun k => if Z.gcd k n =? 1 then 1 else 0).
  assert (Hsym : forall d, g d = g (n - d)).
  { intros d. unfold g. f_equal. f_equal.
    rewrite (Z.gcd_comm (n - d)), <- (Z.gcd_opp_r n (n - d)).
    replace (- (n - d)) with (d - n) by lia.
    now rewrite Z.gcd_sub_diag_r, Z.gcd_comm. }
  assert (Hlast : g n = 0).
  { unfold g. rewrite Z.gcd_diag, Z.abs_eq by lia. destruct (Z.eqb_spec n 1); lia. }
  replace (Z.to_nat n) with (S (Z.to_nat (n - 1))) by lia.
  cbn [sum_upto]. replace (Z.of_nat (S (Z.to_nat (n - 1)))) with n by lia.
  rewrite Hlast, Z.add_0_r.
  pose (k := Z.to_nat ((n - 1) / 2)).
  destruct (Z.eq_dec ((n - 1) mod 2) 0) as [E|E].
  - replace (Z.to_nat (n - 1)) with (Nat.add k k)
      by (unfold k; pose proof (Z.div_mod (n - 1) 2 ltac:(lia)); lia).
    apply sum_upto_sym_even. intros d Hd. rewrite Hsym. f_equal.
    unfold k in *. pose proof (Z.div_mod (n - 1) 2 ltac:(lia)). lia.
  - pose proof (Z.mod_pos_bound (n - 1) 2 ltac:(lia)) as Hb.
    pose proof (Z.div_mod (n - 1) 2 ltac:(lia)) as Ed.
    replace (Z.to_nat (n - 1)) with (S (Nat.add k k)) by (unfold k; lia).
    destruct (@sum_upto_sym_odd k g) as [c Hc].
    { intros d Hd. rewrite Hsym. f_equal. unfold k in *. lia. }
    rewrite Hc. exists c.
    assert (Hmid : Z.of_nat (S k) * 2 = n) by (unfold k; lia).
    assert (Hdiv : (Z.of_nat (S k) | n)) by (exists 2; lia).
    apply Z.divide_gcd_iff in Hdiv; [|lia].
    unfold g. rewrite Hdiv. destruct (Z.eqb_spec (Z.of_nat (S k)) 1); lia.
Qed.

(** * Further properties of the code, one by one *)

(** ** SigmaZ *)



(** X2.  [compute] on an instance built by [SigmaZ(n, z)] always ends,
    whatever [z] is and whichever neighbour the C library's [pow] returns
    for a power that is not a binary64 number: it returns a number, or it
    raises [ZeroDivisionError] (from [self.n % i] once [i] has wrapped
    around to [0]) and no other exception; the object is as it was.  The
    [ZeroDivisionError] does occur: for [n = INT_MAX] the test
    [i * i <= self.n] never fails, for any [z].  Where [compute] has an
    outcome with the choice of [pow] left open, it has that outcome under
    every choice. *)
Theorem compute_ends libm n z self :
  in_int n -> in_int z -> SigmaZ.new n z = Return self ->
  ((exists v, SigmaZ.compute_with (pow_under libm) self = (Return v, self)) \/
   SigmaZ.compute_with (pow_under libm) self = (Raise ZeroDivisionError, self)) /\
  (n = INT_MAX ->
   SigmaZ.compute_with (pow_under libm) self = (Raise ZeroDivisionError, self)) /\
  (fst (SigmaZ.compute self) = Unspecified \/
   SigmaZ.compute_with (pow_under libm) self = SigmaZ.compute self).
Proof.
  intros _ _ Hnew. destruct (new_inv Hnew) as [Hn [Hz ->]]. split; [|split].
  - destruct (compute_under_ends libm (SigmaZ.Make n z)) as [[v [E _]]|E]; eauto.
  - intros ->. apply compute_under_int_max. cbn [SigmaZ.n]. lia.
  - apply compute_open_sound.
Qed.

Lemma compute_ends_witness :
  (in_int 2147483647 /\ in_int 2 /\
   SigmaZ.new 2147483647 2 = Return (SigmaZ.Make 2147483647 2)) /\
  SigmaZ.compute_with (pow_under (fun _ _ => true)) (SigmaZ.Make 2147483647 2)
  = (Raise ZeroDivisionError, SigmaZ.Make 2147483647 2).
Proof.
  assert (Hn : in_int 2147483647) by (unfold in_int, INT_MIN, INT_MAX; lia).
  assert (Hz : in_int 2) by (unfold in_int, INT_MIN, INT_MAX; lia).
  split; [split; [exact Hn|split; [exact Hz|reflexivity]]|].
  apply (proj1 (proj2 (@compute_ends (fun _ _ => true) 2147483647 2
                         (SigmaZ.Make 2147483647 2) Hn Hz Logic.eq_refl))).
  reflexivity.
Defined.

(** X3.  The branch for [z = 0] is a short cut, not a different function:
    on an instance with [z = 0] the general loop, which adds
    [pow(i, 0) = 1] for each divisor, gives what [compute] returns, for
    every [n], also where [i * i] wraps. *)
Theorem compute_count_branch self :
  SigmaZ.z self = 0 ->
  SigmaZ.compute_value self
  = ('(total, _) <- while (SigmaZ.loop_test self) (SigmaZ.power_body self)
                      SigmaZ.loop_bound (0, 1) ;;
     Return total).
Proof.
  intros Hz. unfold SigmaZ.compute_value, SigmaZ.compute_value_with. rewrite Hz. cbn [Z.eqb].
  now rewrite (@while_ext _ (SigmaZ.loop_test self) (SigmaZ.power_body self)
                 (SigmaZ.count_body self) SigmaZ.loop_bound (0, 1)
                 (fun s => power_body_count s Hz)).
Qed.

Lemma compute_count_branch_witness :
  SigmaZ.z (SigmaZ.Make 12 0) = 0 /\
  SigmaZ.compute_value (SigmaZ.Make 12 0)
  = ('(total, _) <- while (SigmaZ.loop_test (SigmaZ.Make 12 0))
                      (SigmaZ.power_body (SigmaZ.Make 12 0))
                      SigmaZ.loop_bound (0, 1) ;;
     Return total).
Proof. split; [reflexivity|]. apply (@compute_count_branch (SigmaZ.Make 12 0)). reflexivity. Defined.



(** X5.  For [0 < n < 46340^2], [SigmaZ(n, 0).compute()] is odd exactly when
    [n] is a perfect square: a divisor pair adds two, and the one divisor
    with [i == oth_div] adds one. *)
Theorem compute_count_odd_iff_square n :
  0 < n < 46340 * 46340 ->
  exists v,
    fst (SigmaZ.compute (SigmaZ.Make n 0)) = Return v /\
    (Z.odd v = true <-> exists k, k * k = n).
Proof.
  intros Hn. exists (tau_spec n). split.
  - rewrite !compute_eq. cbn [fst].
    rewrite compute_value_exact by (cbn; lia). now rewrite tau_sigma.
  - destruct (@tau_spec_parity n (proj1 Hn)) as [c ->].
    destruct (Z.eqb_spec (Z.sqrt n * Z.sqrt n) n) as [E|E].
    + rewrite Z.add_comm, Z.odd_add_mul_2. split; [|reflexivity].
      intros _. now exists (Z.sqrt n).
    + rewrite Z.add_0_r, Z.odd_mul. cbn [Z.odd andb]. split; [discriminate|].
      intros [k Hk]. exfalso. apply E. rewrite <- Hk.
      replace (k * k) with (Z.abs k * Z.abs k) by lia.
      now rewrite Z.sqrt_square by lia.
Qed.

Lemma compute_count_odd_iff_square_witness :
  0 < 36 < 46340 * 46340 /\
  exists v,
    fst (SigmaZ.compute (SigmaZ.Make 36 0)) = Return v /\
    (Z.odd v = true <-> exists k, k * k = 36).
Proof.
  assert (H : 0 < 36 < 46340 * 46340) by lia.
  split; [exact H|]. exact (@compute_count_odd_iff_square 36 H).
Defined.

(** X6.  For [1 < n < 46340^2] and [z >= 0] with [n ^ z <= 2^53],
    [SigmaZ(n, z).compute()] is at least [1 + n ^ z], the share of the
    divisors [1] and [n], and it is [1 + n ^ z] exactly when [n] is prime;
    for [z = 0]: the count is [2] exactly when [n] is prime. *)
Theorem compute_prime_iff n z :
  1 < n < 46340 * 46340 -> 0 <= z -> n ^ z <= 2 ^ 53 ->
  exists v,
    fst (SigmaZ.compute (SigmaZ.Make n z)) = Return v /\
    1 + n ^ z <= v /\ (v = 1 + n ^ z <-> Z.prime n).
Proof.
  intros Hn Hz Hfit. exists (sigma_spec n z). rewrite !compute_eq. cbn [fst].
  rewrite compute_value_exact by (trivial; lia).
  split; [reflexivity|]. split; [apply sigma_spec_lower; lia|]. split.
  - intros E. split; [lia|]. intros d Hd Hdn.
    pose proof (@sigma_spec_composite n z d Hz Hd Hdn). lia.
  - intros Hp. now apply sigma_spec_prime.
Qed.

Lemma compute_prime_iff_witness :
  (1 < 7 < 46340 * 46340 /\ 0 <= 0 /\ 7 ^ 0 <= 2 ^ 53) /\
  exists v,
    fst (SigmaZ.compute (SigmaZ.Make 7 0)) = Return v /\
    1 + 7 ^ 0 <= v /\ (v = 1 + 7 ^ 0 <-> Z.prime 7).
Proof.
  split; [lia|]. apply (@compute_prime_iff 7 0); lia.
Defined.

(** X7.  For [0 < n < 46340^2], [SigmaZ(n, 0).compute()] is at least [1]
    and at most twice the integer square root of [n]: the loop makes that
    many turns and adds at most two in each. *)
Theorem compute_count_bounds n :
  0 < n < 46340 * 46340 ->
  exists v,
    fst (SigmaZ.compute (SigmaZ.Make n 0)) = Return v /\ 1 <= v <= 2 * Z.sqrt n.
Proof.
  intros Hn. exists (tau_spec n). split.
  - rewrite !compute_eq. cbn [fst].
    rewrite compute_value_exact by (cbn; lia). now rewrite tau_sigma.
  - apply tau_spec_bounds. lia.
Qed.

Lemma compute_count_bounds_witness :
  0 < 36 < 46340 * 46340 /\
  exists v,
    fst (SigmaZ.compute (SigmaZ.Make 36 0)) = Return v /\ 1 <= v <= 2 * Z.sqrt 36.
Proof.
  assert (H : 0 < 36 < 46340 * 46340) by lia.
  split; [exact H|]. exact (@compute_count_bounds 36 H).
Defined.

(** X8.  For coprime [a, b > 0] with [a * b < 46340^2] and [z >= 0] with
    [(a * b) ^ z <= 2^53],
    [SigmaZ(a * b, z).compute() = SigmaZ(a, z).compute() * SigmaZ(b, z).compute()]. *)
Theorem compute_multiplicative a b z :
  0 < a -> 0 < b -> Z.gcd a b = 1 -> a * b < 46340 * 46340 ->
  0 <= z -> (a * b) ^ z <= 2 ^ 53 ->
  exists va vb,
    fst (SigmaZ.compute (SigmaZ.Make a z)) = Return va /\
    fst (SigmaZ.compute (SigmaZ.Make b z)) = Return vb /\
    fst (SigmaZ.compute (SigmaZ.Make (a * b) z)) = Return (va * vb).
Proof.
  intros Ha Hb Hg Hab Hz Hfit.
  assert (Hfa : a ^ z <= 2 ^ 53).
  { apply Z.le_trans with ((a * b) ^ z); [|exact Hfit].
    apply Z.pow_le_mono_l. nia. }
  assert (Hfb : b ^ z <= 2 ^ 53).
  { apply Z.le_trans with ((a * b) ^ z); [|exact Hfit].
    apply Z.pow_le_mono_l. nia. }
  exists (sigma_spec a z), (sigma_spec b z).
  rewrite !compute_eq. cbn [fst].
  rewrite !compute_value_exact by (trivial; nia).
  now rewrite sigma_spec_mul.
Qed.

Lemma compute_multiplicative_witness :
  (0 < 4 /\ 0 < 9 /\ Z.gcd 4 9 = 1 /\ 4 * 9 < 46340 * 46340 /\
   0 <= 2 /\ (4 * 9) ^ 2 <= 2 ^ 53) /\
  exists va vb,
    fst (SigmaZ.compute (SigmaZ.Make 4 2)) = Return va /\
    fst (SigmaZ.compute (SigmaZ.Make 9 2)) = Return vb /\
    fst (SigmaZ.compute (SigmaZ.Make (4 * 9) 2)) = Return (va * vb).
Proof.
  split; [repeat split; lia|].
  apply (@compute_multiplicative 4 9 2); try lia. reflexivity.
Defined.

Section DivisorsLink.
Import ssreflect.

(** X9.  For [0 < n < 46340^2] and [n ^ z <= 2^53],
    [SigmaZ(n, z).compute()] is the sum of [d ^ z] over MathComp's list
    [divisors n]. *)
Theorem compute_divisors (n e : nat) :
  0 < Z.of_nat n < 46340 * 46340 -> Z.of_nat n ^ Z.of_nat e <= 2 ^ 53 ->
  fst (SigmaZ.compute (SigmaZ.Make (Z.of_nat n) (Z.of_nat e)))
  = Return (Z.of_nat (\sum_(d <- divisors n) d ^ e)%N).
Proof.
  move=> Hn Hfit; rw compute_eq /= compute_value_exact //; first by lia.
  by rw sigma_spec_divisors //; apply/ltP; lia.
Qed.

Lemma compute_divisors_witness :
  (0 < Z.of_nat 6 < 46340 * 46340 /\ Z.of_nat 6 ^ Z.of_nat 2 <= 2 ^ 53) /\
  fst (SigmaZ.compute (SigmaZ.Make (Z.of_nat 6) (Z.of_nat 2)))
  = Return (Z.of_nat (\sum_(d <- divisors 6) d ^ 2)%N).
Proof.
  have H1 : 0 < Z.of_nat 6 < 46340 * 46340 by lia.
  have H2 : Z.of_nat 6 ^ Z.of_nat 2 <= 2 ^ 53 by vm_compute; discriminate.
  split; [split; [exact H1|exact H2]|]. exact (@compute_divisors 6%nat 2%nat H1 H2).
Defined.
End DivisorsLink.

(** ** euler_phi *)

(** X10.  For a prime [p] and [k >= 1] with [p ^ k] a C int,
    [euler_phi(p ^ k)] is [p ^ (k - 1) * (p - 1)]. *)
Theorem euler_phi_prime_power p k :
  Z.prime p -> 1 <= k -> p ^ k <= INT_MAX ->
  euler_phi (p ^ k) = Return (p ^ (k - 1) * (p - 1)).
Proof.
  intros Hp Hk Hfit. pose proof (Z.prime_ge_2 _ Hp).
  assert (0 < p ^ k) by (apply Z.pow_pos_nonneg; lia).
  rewrite euler_phi_value by lia. now rewrite coprime_count_prime_pow.
Qed.

Lemma euler_phi_prime_power_witness :
  (Z.prime 3 /\ 1 <= 4 /\ 3 ^ 4 <= INT_MAX) /\
  euler_phi (3 ^ 4) = Return (3 ^ (4 - 1) * (3 - 1)).
Proof.
  assert (H : 3 ^ 4 <= INT_MAX) by (unfold INT_MAX; lia).
  split; [split; [exact Z.prime_3|split; [lia|exact H]]|].
  apply (@euler_phi_prime_power 3 4 Z.prime_3); [lia|exact H].
Defined.

(** X11.  For a C int [n > 1], [euler_phi(n)] is [n - 1] exactly when [n] is
    prime. *)
Theorem euler_phi_prime_iff n :
  1 < n <= INT_MAX -> (euler_phi n = Return (n - 1) <-> Z.prime n).
Proof.
  intros Hn. rewrite euler_phi_value by lia. split.
  - intros E. assert (E' : coprime_count n = n - 1) by congruence.
    split; [lia|]. intros d Hd Hdn.
    pose proof (@coprime_count_composite n d Hd Hdn). lia.
  - intros Hp. now rewrite coprime_count_prime.
Qed.

Lemma euler_phi_prime_iff_witness :
  1 < 97 <= INT_MAX /\ (euler_phi 97 = Return (97 - 1) <-> Z.prime 97).
Proof.
  assert (H : 1 < 97 <= INT_MAX) by (unfold INT_MAX; lia).
  split; [exact H|]. exact (@euler_phi_prime_iff 97 H).
Defined.

(** X12.  For a C int [n >= 3], [euler_phi(n)] is even. *)
Theorem euler_phi_even n :
  3 <= n <= INT_MAX -> exists v, euler_phi n = Return (2 * v).
Proof.
  intros Hn. destruct (@coprime_count_even n (proj1 Hn)) as [c Hc].
  exists c. rewrite euler_phi_value by lia. now rewrite Hc.
Qed.

Lemma euler_phi_even_witness :
  3 <= 100 <= INT_MAX /\ exists v, euler_phi 100 = Return (2 * v).
Proof.
  assert (H : 3 <= 100 <= INT_MAX) by (unfold INT_MAX; lia).
  split; [exact H|]. exact (@euler_phi_even 100 H).
Defined.

(** X13.  The inner loop [while n % i == 0: n //= i], for [i >= 2] and a
    C int [n >= 1]: it ends, what it leaves is [n] without its factors [i]
    ([n = i ^ k * n'] with [i] not dividing [n']); run again on its result
    it changes nothing, and it leaves alone an [n] that [i] does not
    divide. *)
Theorem strip_removes_factor i m :
  2 <= i -> 1 <= m <= INT_MAX ->
  exists m' k,
    strip i m = Return m' /\ 0 <= k /\ m = i ^ k * m' /\ 1 <= m' <= m /\
    ~ (i | m') /\ strip i m' = Return m' /\ (~ (i | m) -> m' = m).
Proof.
  intros Hi Hm.
  destruct (@strip_spec i m Hi Hm) as [m' [k [Hs [Hk [Em [Hm' Hd]]]]]].
  assert (Hfix : forall c, 1 <= c <= INT_MAX -> ~ (i | c) -> strip i c = Return c).
  { intros c Hc Hnd.
    destruct (@strip_spec i c Hi Hc) as [c' [j [Hs' [Hj [Ec [Hc' _]]]]]].
    rewrite Hs'. f_equal.
    destruct (Z.eq_dec j 0) as [->|Hj0]; [rewrite Z.pow_0_r in Ec; lia|].
    exfalso. apply Hnd. exists (i ^ (j - 1) * c').
    replace j with (1 + (j - 1)) in Ec by lia.
    rewrite Z.pow_add_r, Z.pow_1_r in Ec by lia. lia. }
  exists m', k. split; [assumption|]. split; [assumption|]. split; [assumption|].
  split; [assumption|]. split; [assumption|]. split.
  - apply Hfix; [lia|assumption].
  - intros Hnd. specialize (Hfix m Hm Hnd). congruence.
Qed.

Lemma strip_removes_factor_witness :
  (2 <= 3 /\ 1 <= 54 <= INT_MAX) /\
  exists m' k,
    strip 3 54 = Return m' /\ 0 <= k /\ 54 = 3 ^ k * m' /\ 1 <= m' <= 54 /\
    ~ (3 | m') /\ strip 3 m' = Return m' /\ (~ (3 | 54) -> m' = 54).
Proof.
  assert (H : 1 <= 54 <= INT_MAX) by (unfold INT_MAX; lia).
  split; [split; [lia|exact H]|].
  apply (@strip_removes_factor 3 54); [lia|exact H].
Defined.

Section TotientLink.
Import ssreflect.

(** X14.  On a C int [n > 0], [euler_phi] is MathComp's [totient]. *)
Theorem euler_phi_totient (m : nat) :
  0 < Z.of_nat m <= INT_MAX ->
  euler_phi (Z.of_nat m) = Return (Z.of_nat (totient m)).
Proof.
  move=> Hm; rw euler_phi_value // coprime_count_totient //.
  by apply/ltP; lia.
Qed.

Lemma euler_phi_totient_witness :
  0 < Z.of_nat 100 <= INT_MAX /\
  euler_phi (Z.of_nat 100) = Return (Z.of_nat (totient 100)).
Proof.
  have H : 0 < Z.of_nat 100 <= INT_MAX by rw /INT_MAX; lia.
  split; [exact H|]. exact (@euler_phi_totient 100%nat H).
Defined.
End TotientLink.
